(** * Online-Retail: the CSV ingestion pipeline (populate-db-fixed.js)

    A shallow embedding of [processBatch] and [populateDatabase] together
    with the four-table store they write to, followed by the properties of
    the ingestion pipeline.

    - CSV records are JavaScript objects whose fields are strings or
      [undefined]: a record of [option string].
    - The PostgreSQL session behind [client.query] is a value of type
      [Store]: the four tables of the schema, the sequence behind
      [invoice_items.id] and the transaction status.
    - [async] functions are computations in a state-and-exception monad
      over [World] (the session, the module-level counter, the console);
      where calls can overlap they are resumptions ([Async]), suspended at
      each [await] and resumed by the event loop.
    - The stream returned by [csv()] is a machine that delivers ['data']
      only while flowing, and ['end'] once its last record is out: at
      once when it knows by then that the file has ended, whether paused or
      not, and otherwise when it is flowing again. *)

From Stdlib Require Import ZArith Lia Ascii DecimalString.
From stdpp Require Import gmap strings list fin_maps sorting.

Local Open Scope string_scope.
Local Open Scope list_scope.

(** ** JavaScript values *)

(** One parsed CSV record (the [row] object handed to the ['data']
    listener).  [None] is [undefined]: the column is absent from the line. *)
Record Row := mkRow {
  InvoiceNo   : option string;
  StockCode   : option string;
  Description : option string;
  Quantity    : option string;
  InvoiceDate : option string;
  UnitPrice   : option string;
  CustomerID  : option string;
  Country     : option string
}.

(** Truthiness of a string-or-undefined value: [if (row.X)]. *)
Definition truthy (v : option string) : bool :=
  match v with
  | None => false
  | Some EmptyString => false
  | Some (String _ _) => true
  end.

(** [s.startsWith(p)] on strings. *)
Fixpoint str_startsWith (s p : string) : bool :=
  match p with
  | EmptyString => true
  | String c p' =>
      match s with
      | EmptyString => false
      | String d s' => if Ascii.eqb c d then str_startsWith s' p' else false
      end
  end.

(** ** The persistence store (schema of the four tables)

    The tables are those of the schema script; what the server does with
    a statement follows PostgreSQL: the text parameters of the INTEGER,
    NUMERIC and TIMESTAMP columns are converted when they are bound, then
    the lengths of the VARCHAR values are checked, then the row is formed;
    a primary-key conflict under ON CONFLICT DO NOTHING skips
    the row before any foreign key is looked at, a foreign key is checked
    unless it is NULL, and an error inside a transaction block fails the
    block.  The connection itself is taken as reliable: a statement fails
    only for what it says. *)

(** products(stock_code PK, description TEXT, popularity_score INTEGER DEFAULT 0) *)
Record ProductRow := mkProduct {
  p_description : option string;
  p_popularity_score : option Z
}.

(** customers(customer_id PK, country VARCHAR(50)) *)
Record CustomerRow := mkCustomer {
  c_country : option string
}.

(** invoices(invoice_id PK, customer_id REFERENCES customers, invoice_date,
    country, is_cancelled) *)
Record InvoiceRow := mkInvoice {
  i_customer_id : option string;
  i_invoice_date : option Z;
  i_country : option string;
  i_is_cancelled : option bool
}.

(** invoice_items(id SERIAL PK, invoice_id REFERENCES invoices,
    stock_code REFERENCES products, quantity INTEGER, unit_price NUMERIC(10,2)) *)
Record ItemRow := mkItem {
  it_invoice_id : option string;
  it_stock_code : option string;
  it_quantity : option Z;
  it_unit_price : option Z
}.

(** Each table is a finite map from its primary key to the other columns. *)
Record Tables := mkTables {
  customers : gmap string CustomerRow;
  products : gmap string ProductRow;
  invoices : gmap string InvoiceRow;
  invoice_items : gmap Z ItemRow
}.

Definition empty_tables : Tables := mkTables ∅ ∅ ∅ ∅.

(** Transaction status of the session. *)
Inductive Txn :=
| Idle
| Active (snapshot : Tables)
| Failed (snapshot : Tables).

(** The session: current table contents, the last value handed out by the
    sequence of [invoice_items.id] (sequences are not transactional), and
    the transaction status. *)
Record Store := mkStore {
  tables : Tables;
  items_seq : Z;
  txn : Txn
}.

Definition empty_store : Store := mkStore empty_tables 0 Idle.

Inductive PgError :=
| NotNullViolation
| StringTooLong
| InvalidTextRepresentation
| UniqueViolation
| ForeignKeyViolation
| InFailedTransaction.

(** Input conversion of the text parameters for the INTEGER, NUMERIC(10,2)
    and TIMESTAMP columns.  These are functions of the database server, not
    of this repository: the development is parametric in them.  NUMERIC(10,2)
    values are held in hundredths. *)
Class PgInput := {
  pg_integer : string -> option Z;
  pg_numeric : string -> option Z;
  pg_timestamp : string -> option Z
}.

Fixpoint all_spaces (s : string) : bool :=
  match s with
  | EmptyString => true
  | String c s' => if Ascii.eqb c Ascii.Space then all_spaces s' else false
  end.

Fixpoint str_take (n : nat) (s : string) : string :=
  match n, s with
  | S n', String c s' => String c (str_take n' s')
  | _, _ => EmptyString
  end.

Fixpoint str_drop (n : nat) (s : string) : string :=
  match n, s with
  | S n', String _ s' => str_drop n' s'
  | _, _ => s
  end.

(** Strings hold the bytes node-postgres sends for a JavaScript string,
    its UTF-8 encoding; the server (database encoding UTF8) counts the
    length of a VARCHAR value in characters.  A character is a byte that
    is no continuation byte ([10xxxxxx]), with the continuation bytes that
    follow it. *)
Definition is_continuation (c : Ascii.ascii) : bool :=
  let n := Ascii.nat_of_ascii c in (128 <=? n)%nat && (n <? 192)%nat.

(** The number of characters of [s]. *)
Fixpoint char_length (s : string) : nat :=
  match s with
  | EmptyString => 0
  | String c s' =>
      if is_continuation c then char_length s' else S (char_length s')
  end.

(** The first [n] characters of [s], and what follows them. *)
Fixpoint char_take (n : nat) (s : string) : string :=
  match s with
  | EmptyString => EmptyString
  | String c s' =>
      if is_continuation c then String c (char_take n s')
      else match n with
           | 0 => EmptyString
           | S n' => String c (char_take n' s')
           end
  end.

Fixpoint char_drop (n : nat) (s : string) : string :=
  match s with
  | EmptyString => EmptyString
  | String c s' =>
      if is_continuation c then char_drop n s'
      else match n with
           | 0 => s
           | S n' => char_drop n' s'
           end
  end.

(** Assignment to a VARCHAR(n) column: a value of more than [n]
    characters is rejected, unless the excess consists of spaces only,
    which are cut off. *)
Definition varchar (n : nat) (s : string) : option string :=
  if Nat.leb (char_length s) n then Some s
  else if all_spaces (char_drop n s) then Some (char_take n s)
  else None.

(** A parameter that may be NULL ([undefined] is sent as NULL). *)
Definition nullable {B} (conv : string -> option B) (v : option string)
  : option (option B) :=
  match v with
  | None => Some None
  | Some s => option_map Some (conv s)
  end.

(** The statements sent by the loader, with their bound parameters. *)
Inductive Query :=
| BEGIN
| COMMIT
| ROLLBACK
| InsertCustomer (customer_id country : option string)
| InsertProduct (stock_code description : option string)
| InsertInvoice (invoice_id customer_id invoice_date country : option string)
                (is_cancelled : bool)
| InsertItem (invoice_id stock_code quantity unit_price : option string).

Definition set_customers T v := mkTables v (products T) (invoices T) (invoice_items T).
Definition set_products T v := mkTables (customers T) v (invoices T) (invoice_items T).
Definition set_invoices T v := mkTables (customers T) (products T) v (invoice_items T).
Definition set_invoice_items T v := mkTables (customers T) (products T) (invoices T) v.

(** A foreign key resolves when it is NULL or names an existing row. *)
Definition fk_ok {V} (k : option string) (m : gmap string V) : bool :=
  match k with
  | None => true
  | Some s => bool_decide (is_Some (m !! s))
  end.

Section Store.
Context `{PgInput}.

(** INSERT INTO customers (customer_id, country) VALUES ($1, $2)
    ON CONFLICT (customer_id) DO NOTHING *)
Definition insert_customer (p1 p2 : option string) (T : Tables)
  : PgError + Tables :=
  match nullable (varchar 20) p1, nullable (varchar 50) p2 with
  | None, _ | _, None => inl StringTooLong
  | Some None, Some _ => inl NotNullViolation
  | Some (Some k), Some co =>
      match customers T !! k with
      | Some _ => inr T
      | None => inr (set_customers T (<[k := mkCustomer co]> (customers T)))
      end
  end.

(** INSERT INTO products (stock_code, description) VALUES ($1, $2)
    ON CONFLICT (stock_code) DO NOTHING *)
Definition insert_product (p1 p2 : option string) (T : Tables)
  : PgError + Tables :=
  match nullable (varchar 20) p1 with
  | None => inl StringTooLong
  | Some None => inl NotNullViolation
  | Some (Some k) =>
      match products T !! k with
      | Some _ => inr T
      | None => inr (set_products T (<[k := mkProduct p2 (Some 0%Z)]> (products T)))
      end
  end.

(** INSERT INTO invoices (invoice_id, customer_id, invoice_date, country,
    is_cancelled) VALUES ($1, $2, $3, $4, $5)
    ON CONFLICT (invoice_id) DO NOTHING *)
Definition insert_invoice (p1 p2 p3 p4 : option string) (p5 : bool) (T : Tables)
  : PgError + Tables :=
  match nullable pg_timestamp p3 with
  | None => inl InvalidTextRepresentation
  | Some date =>
      match nullable (varchar 20) p1, nullable (varchar 20) p2,
            nullable (varchar 50) p4 with
      | None, _, _ | _, None, _ | _, _, None => inl StringTooLong
      | Some id, Some cust, Some co =>
          match id with
          | None => inl NotNullViolation
          | Some k =>
              match invoices T !! k with
              | Some _ => inr T
              | None =>
                  if fk_ok cust (customers T)
                  then inr (set_invoices T
                              (<[k := mkInvoice cust date co (Some p5)]> (invoices T)))
                  else inl ForeignKeyViolation
              end
          end
      end
  end.

(** INSERT INTO invoice_items (invoice_id, stock_code, quantity, unit_price)
    VALUES ($1, $2, $3, $4).  The result carries the new value of the
    sequence: [nextval] is taken before the constraints are checked and is
    not given back when they fail.  (The sequence is taken as unbounded.) *)
Definition insert_item (p1 p2 p3 p4 : option string) (T : Tables) (seq : Z)
  : (PgError + Tables) * Z :=
  match nullable pg_integer p3, nullable pg_numeric p4 with
  | None, _ | _, None => (inl InvalidTextRepresentation, seq)
  | Some qty, Some price =>
      match nullable (varchar 20) p1, nullable (varchar 20) p2 with
      | None, _ | _, None => (inl StringTooLong, seq)
      | Some inv, Some sc =>
          let id := (seq + 1)%Z in
          match invoice_items T !! id with
          | Some _ => (inl UniqueViolation, id)
          | None =>
              if fk_ok inv (invoices T) && fk_ok sc (products T)
              then (inr (set_invoice_items T
                           (<[id := mkItem inv sc qty price]> (invoice_items T))), id)
              else (inl ForeignKeyViolation, id)
          end
      end
  end.

(** One INSERT against given table contents. *)
Definition run_insert (q : Query) (T : Tables) (seq : Z)
  : (PgError + Tables) * Z :=
  match q with
  | InsertCustomer a b => (insert_customer a b T, seq)
  | InsertProduct a b => (insert_product a b T, seq)
  | InsertInvoice a b c d e => (insert_invoice a b c d e T, seq)
  | InsertItem a b c d => insert_item a b c d T seq
  | _ => (inr T, seq)
  end.

(** What the server does with one statement, by transaction status.  A
    statement that fails inside a transaction block leaves the block in
    the failed state, from which only the end of the block leads out. *)
Definition pg_execute (q : Query) (st : Store) : option PgError * Store :=
  match q with
  | BEGIN =>
      match txn st with
      | Idle => (None, mkStore (tables st) (items_seq st) (Active (tables st)))
      | Active _ => (None, st)
      | Failed _ => (Some InFailedTransaction, st)
      end
  | COMMIT =>
      match txn st with
      | Idle => (None, st)
      | Active _ => (None, mkStore (tables st) (items_seq st) Idle)
      | Failed snap => (None, mkStore snap (items_seq st) Idle)
      end
  | ROLLBACK =>
      match txn st with
      | Idle => (None, st)
      | Active snap | Failed snap => (None, mkStore snap (items_seq st) Idle)
      end
  | _ =>
      match txn st with
      | Failed _ => (Some InFailedTransaction, st)
      | Idle =>
          match run_insert q (tables st) (items_seq st) with
          | (inr T', seq') => (None, mkStore T' seq' Idle)
          | (inl e, seq') => (Some e, mkStore (tables st) seq' Idle)
          end
      | Active snap =>
          match run_insert q (tables st) (items_seq st) with
          | (inr T', seq') => (None, mkStore T' seq' (Active snap))
          | (inl e, seq') => (Some e, mkStore (tables st) seq' (Failed snap))
          end
      end
  end.

End Store.

(** ** The loader's world and its monad *)

(** Values thrown by rejected promises. *)
Inductive Exn :=
| DatabaseError (e : PgError)
| TypeError.

Inductive ConsoleLine :=
| LogConnected
| LogProcessed (n : nat)
| LogCompleted
| ErrProcessingBatch (err : Exn).

(** Everything [processBatch] can read or write: the [client] session, the
    statements it has sent so far (oldest first), the module-level counter
    [processedRows], and the console output (oldest first). *)
Record World := mkWorld {
  client : Store;
  sent : list Query;
  processedRows : nat;
  console : list ConsoleLine
}.

Inductive Result (A : Type) :=
| Ok (a : A)
| Throw (e : Exn).
Arguments Ok {A} a.
Arguments Throw {A} e.

(** An [async] computation: it changes the world and either yields a value
    or throws; what it did before throwing stays done. *)
Definition M (A : Type) : Type := World -> Result A * World.

Global Instance M_ret : MRet M := fun A a w => (Ok a, w).

Global Instance M_bind : MBind M := fun A B k m w =>
  match m w with
  | (Ok a, w') => k a w'
  | (Throw e, w') => (Throw e, w')
  end.

Definition throw {A} (e : Exn) : M A := fun w => (Throw e, w).

Definition try_catch {A} (body : M A) (handler : Exn -> M A) : M A :=
  fun w =>
    match body w with
    | (Ok a, w') => (Ok a, w')
    | (Throw e, w') => handler e w'
    end.

Definition when (c : bool) (m : M unit) : M unit :=
  if c then m else mret tt.

(** [for (const x of l) body(x)] *)
Fixpoint for_of {A} (l : list A) (body : A -> M unit) : M unit :=
  match l with
  | [] => mret tt
  | x :: l' => body x ;; for_of l' body
  end.

(** The world with one more line on the console. *)
Definition log (c : ConsoleLine) (w : World) : World :=
  mkWorld (client w) (sent w) (processedRows w) (console w ++ [c]).

Definition console_log (c : ConsoleLine) : M unit :=
  fun w => (Ok tt, log c w).

Definition console_error := console_log.

Definition get_processedRows : M nat := fun w => (Ok (processedRows w), w).

Definition set_processedRows (n : nat) : M unit :=
  fun w => (Ok tt, mkWorld (client w) (sent w) n (console w)).

(** [v.startsWith(p)]: a method call on [undefined] throws. *)
Definition startsWith (v : option string) (p : string) : M bool :=
  match v with
  | Some s => mret (str_startsWith s p)
  | None => throw TypeError
  end.

Section Loader.
Context `{PgInput}.

(** [await client.query(text, params)]: the statement goes to the server;
    an error response rejects the promise. *)
Definition client_query (q : Query) : M unit :=
  fun w =>
    let (r, st) := pg_execute q (client w) in
    let w' := mkWorld st (sent w ++ [q]) (processedRows w) (console w) in
    match r with
    | None => (Ok tt, w')
    | Some e => (Throw (DatabaseError e), w')
    end.

(** The body of the [for] loop of [processBatch]. *)
Definition processRow (row : Row) : M unit :=
  (* Insert customer (if not exists) *)
  when (truthy (CustomerID row))
    (client_query (InsertCustomer (CustomerID row) (Country row))) ;;
  (* Insert product (if not exists) *)
  when (truthy (StockCode row) && truthy (Description row))
    (client_query (InsertProduct (StockCode row) (Description row))) ;;
  (* Insert invoice (handle cancellations) *)
  when (truthy (InvoiceNo row))
    (isCancelled ← startsWith (InvoiceNo row) "C" ;
     client_query (InsertInvoice (InvoiceNo row) (CustomerID row)
                     (InvoiceDate row) (Country row) isCancelled)) ;;
  (* Insert invoice item *)
  when (truthy (InvoiceNo row) && truthy (StockCode row))
    (client_query (InsertItem (InvoiceNo row) (StockCode row)
                     (Quantity row) (UnitPrice row))).

Definition processBatch (batch : list Row) : M unit :=
  try_catch
    (client_query BEGIN ;;
     for_of batch processRow ;;
     client_query COMMIT ;;
     n ← get_processedRows ;
     set_processedRows (n + length batch) ;;
     n' ← get_processedRows ;
     console_log (LogProcessed n'))
    (fun err =>
       client_query ROLLBACK ;;
       console_error (ErrProcessingBatch err)).

End Loader.

(** ** The batch accumulator ([populateDatabase]) *)

Definition batchSize : nat := 1000.

Inductive Phase :=
| Streaming   (* the stream has not emitted ['end'] yet *)
| Ended       (* the ['end'] listener has been entered *)
| Closed      (* the ['end'] listener has run to its end *)
| Rejected.   (* a promise was rejected with nobody to handle it *)

(** What runs when the promise of a call of [processBatch] is fulfilled. *)
Inductive Continuation :=
| ThenResume   (* the [then] callback in the ['data'] listener *)
| EndTail.     (* the rest of the ['end'] listener after its [await] *)

(** The state of the run between two callbacks.  [source] holds the
    records the stream has not emitted yet; [flowing] is the stream's mode
    ([pause()] / [resume()]); [pending] holds the calls of [processBatch]
    whose promise has not settled yet, each with its argument and its
    continuation; [calls] lists the arguments of all calls of
    [processBatch] so far, oldest first. *)
Record Machine := mkMachine {
  source : list Row;
  flowing : bool;
  currentBatch : list Row;
  pending : list (list Row * Continuation);
  calls : list (list Row);
  phase : Phase;
  world : World
}.

Definition set_world (m : Machine) (w : World) : Machine :=
  mkMachine (source m) (flowing m) (currentBatch m) (pending m) (calls m)
            (phase m) w.

Definition set_source (m : Machine) (src : list Row) : Machine :=
  mkMachine src (flowing m) (currentBatch m) (pending m) (calls m)
            (phase m) (world m).

Definition set_pending (m : Machine) (p : list (list Row * Continuation))
  : Machine :=
  mkMachine (source m) (flowing m) (currentBatch m) p (calls m)
            (phase m) (world m).

Definition set_phase (m : Machine) (ph : Phase) : Machine :=
  mkMachine (source m) (flowing m) (currentBatch m) (pending m) (calls m)
            ph (world m).

(** The ['data'] listener: it returns once [processBatch] has been called. *)
Definition on_data (row : Row) (m : Machine) : Machine :=
  (* currentBatch.push(row) *)
  let batch := currentBatch m ++ [row] in
  if (batchSize <=? length batch)%nat then
    (* stream.pause(); processBatch([...currentBatch]).then(...) *)
    mkMachine (source m) false batch (pending m ++ [(batch, ThenResume)])
              (calls m ++ [batch]) (phase m) (world m)
  else
    mkMachine (source m) (flowing m) batch (pending m) (calls m)
              (phase m) (world m).

(** The tail of the ['end'] listener:
    [console.log(completed); await client.end()]. *)
Definition on_end_tail (m : Machine) : Machine :=
  mkMachine (source m) (flowing m) (currentBatch m) (pending m) (calls m)
            Closed (log LogCompleted (world m)).

(** The ['end'] listener, up to its first [await]. *)
Definition on_end (m : Machine) : Machine :=
  if (0 <? length (currentBatch m))%nat then
    (* await processBatch(currentBatch) *)
    mkMachine (source m) (flowing m) (currentBatch m)
              (pending m ++ [(currentBatch m, EndTail)])
              (calls m ++ [currentBatch m]) Ended (world m)
  else on_end_tail (set_phase m Ended).

(** The continuation of a fulfilled call. *)
Definition continue (k : Continuation) (m : Machine) : Machine :=
  match k with
  | ThenResume =>
      (* currentBatch = []; stream.resume() *)
      mkMachine (source m) true [] (pending m) (calls m) (phase m) (world m)
  | EndTail => on_end_tail m
  end.

Section Accumulator.
Context `{PgInput}.

(** The oldest pending call of [processBatch] settles.  What the call does
    to the world between its start and its end is applied here in one
    piece: this is the run in which no call overlaps another.  The event
    loop with the calls taken statement by statement, and the run in which
    two calls do overlap, follow below ([Loop], [turn]). *)
Definition settle (g : list Row) (k : Continuation)
    (rest : list (list Row * Continuation)) (m : Machine) : Machine :=
  match processBatch g (world m) with
  | (Ok _, w') => continue k (set_world (set_pending m rest) w')
  | (Throw _, w') => set_phase (set_world (set_pending m rest) w') Rejected
  end.

(** One turn of the run in which calls settle one at a time: a pending
    call settles before the stream is looked at, and the stream emits
    ['end'] when it is flowing and drained. *)
Definition step (m : Machine) : option Machine :=
  match phase m with
  | Rejected => None
  | ph =>
      match pending m with
      | (g, k) :: rest => Some (settle g k rest m)
      | [] =>
          match ph with
          | Streaming =>
              if flowing m then
                match source m with
                | row :: rest => Some (on_data row (set_source m rest))
                | [] => Some (on_end m)
                end
              else None
          | _ => None
          end
      end
  end.

Fixpoint run (fuel : nat) (m : Machine) : Machine :=
  match fuel with
  | 0 => m
  | S fuel' =>
      match step m with
      | Some m' => run fuel' m'
      | None => m
      end
  end.

(** The state in which the first record can arrive: the client is
    connected and the listeners are attached.  (When [connect] fails the
    process exits before anything is read; a source that fails to read is
    not modelled either: the source is the list of its records.) *)
Definition start (src : list Row) (w : World) : Machine :=
  mkMachine src true [] [] [] Streaming (log LogConnected w).

(** The whole run over the records [src] of the CSV file, when the
    stream finds the end of the file after it has handed out the last
    record: ['end'] then comes once the last full group has settled.
    Every turn consumes a record, settles a call or ends the stream, so
    twice the number of records plus two turns are enough.  (For the run in
    which the end of the file is known to the stream as it hands out the
    last record, see [populate] below; the two differ only when the last
    record fills a group.) *)
Definition populateDatabase (src : list Row) (w : World) : Machine :=
  run (2 * length src + 2) (start src w).

End Accumulator.

(** ** The event loop, statement by statement

    [processBatch] is an [async] function: at each [await client.query]
    it hands control back to the event loop and is resumed by the reply.
    A call in flight is a value of [Async]: what it does next, and how it
    goes on from the reply to the statement it awaits. *)

Inductive Async (A : Type) : Type :=
| Settled (r : Result A)                         (* the promise has settled *)
| Await (q : Query) (k : option PgError -> Async A)
                                                 (* [await client.query(q)] *)
| Now (f : World -> World) (k : Async A).        (* code that runs at once *)
Arguments Settled {A} r.
Arguments Await {A} q k.
Arguments Now {A} f k.

(** [processBatch] once more, as the [async] function it is.  The names are
    those of the definitions above. *)
Module Async.

Fixpoint bind {A B} (m : Async A) (k : A -> Async B) : Async B :=
  match m with
  | Settled (Ok a) => k a
  | Settled (Throw e) => Settled (Throw e)
  | Await q r => Await q (fun x => bind (r x) k)
  | Now f m' => Now f (bind m' k)
  end.

#[global] Instance Async_ret : MRet Async := fun A a => Settled (Ok a).
#[global] Instance Async_bind : MBind Async := fun A B k m => bind m k.

Fixpoint try_catch {A} (body : Async A) (handler : Exn -> Async A) : Async A :=
  match body with
  | Settled (Ok a) => Settled (Ok a)
  | Settled (Throw e) => handler e
  | Await q r => Await q (fun x => try_catch (r x) handler)
  | Now f m' => Now f (try_catch m' handler)
  end.

Definition throw {A} (e : Exn) : Async A := Settled (Throw e).

Definition when (c : bool) (m : Async unit) : Async unit :=
  if c then m else mret tt.

Fixpoint for_of {A} (l : list A) (body : A -> Async unit) : Async unit :=
  match l with
  | [] => mret tt
  | x :: l' => body x ;; for_of l' body
  end.

(** [await client.query(text, params)] *)
Definition client_query (q : Query) : Async unit :=
  Await q (fun r => match r with
                    | None => Settled (Ok tt)
                    | Some e => Settled (Throw (DatabaseError e))
                    end).

Definition console_log (c : ConsoleLine) : Async unit :=
  Now (log c) (Settled (Ok tt)).

Definition console_error := console_log.

(** [processedRows += n] *)
Definition add_processedRows (n : nat) : Async unit :=
  Now (fun w => mkWorld (client w) (sent w) (processedRows w + n) (console w))
      (Settled (Ok tt)).

(** [console.log(`Processed ${processedRows} rows...`)] *)
Definition log_processedRows : Async unit :=
  Now (fun w => log (LogProcessed (processedRows w)) w) (Settled (Ok tt)).

Definition startsWith (v : option string) (p : string) : Async bool :=
  match v with
  | Some s => mret (str_startsWith s p)
  | None => throw TypeError
  end.

(** The body of the [for] loop of [processBatch]. *)
Definition processRow (row : Row) : Async unit :=
  (* Insert customer (if not exists) *)
  when (truthy (CustomerID row))
    (client_query (InsertCustomer (CustomerID row) (Country row))) ;;
  (* Insert product (if not exists) *)
  when (truthy (StockCode row) && truthy (Description row))
    (client_query (InsertProduct (StockCode row) (Description row))) ;;
  (* Insert invoice (handle cancellations) *)
  when (truthy (InvoiceNo row))
    (isCancelled ← startsWith (InvoiceNo row) "C" ;
     client_query (InsertInvoice (InvoiceNo row) (CustomerID row)
                     (InvoiceDate row) (Country row) isCancelled)) ;;
  (* Insert invoice item *)
  when (truthy (InvoiceNo row) && truthy (StockCode row))
    (client_query (InsertItem (InvoiceNo row) (StockCode row)
                     (Quantity row) (UnitPrice row))).

Definition processBatch (batch : list Row) : Async unit :=
  try_catch
    (client_query BEGIN ;;
     for_of batch processRow ;;
     client_query COMMIT ;;
     add_processedRows (length batch) ;;
     log_processedRows)
    (fun err =>
       client_query ROLLBACK ;;
       console_error (ErrProcessingBatch err)).

End Async.

(** A call of [processBatch] in flight: its argument, what runs when its
    promise is fulfilled, the statement it has handed to the client, and
    how it goes on from the reply. *)
Record Call := mkCall {
  call_batch : list Row;
  call_then : Continuation;
  call_query : Query;
  call_resume : option PgError -> Async unit
}.

(** The state of the run between two callbacks.  [unread] holds the
    records the stream has not handed out yet; [stream_flowing] is its
    mode; [end_due] says that the stream has put its ['end'] event on the
    next tick; [buffer] is [currentBatch]; [queue] is the query queue of
    the client, oldest first: the client sends one statement at a time, in
    the order of the calls of [client.query], and each call in flight has
    one statement in it; [handed] lists the arguments of all calls of
    [processBatch] so far, oldest first. *)
Record Loop := mkLoop {
  unread : list Row;
  stream_flowing : bool;
  end_due : bool;
  buffer : list Row;
  queue : list Call;
  handed : list (list Row);
  stage : Phase;
  now : World
}.

Definition set_now (l : Loop) (w : World) : Loop :=
  mkLoop (unread l) (stream_flowing l) (end_due l) (buffer l) (queue l)
         (handed l) (stage l) w.

Definition set_queue (l : Loop) (q : list Call) : Loop :=
  mkLoop (unread l) (stream_flowing l) (end_due l) (buffer l) q
         (handed l) (stage l) (now l).

Definition set_stage (l : Loop) (ph : Phase) : Loop :=
  mkLoop (unread l) (stream_flowing l) (end_due l) (buffer l) (queue l)
         (handed l) ph (now l).

(** The tail of the ['end'] listener:
    [console.log(completed); await client.end()]. *)
Definition end_tail (l : Loop) : Loop :=
  mkLoop (unread l) (stream_flowing l) (end_due l) (buffer l) (queue l)
         (handed l) Closed (log LogCompleted (now l)).

(** What runs when the promise of a call is fulfilled. *)
Definition fulfilled (k : Continuation) (l : Loop) : Loop :=
  match k with
  | ThenResume =>
      (* currentBatch = []; stream.resume() *)
      mkLoop (unread l) true (end_due l) [] (queue l) (handed l) (stage l)
             (now l)
  | EndTail => end_tail l
  end.

(** A call runs until it awaits a reply: its statement joins the queue of
    the client.  When instead its promise settles, what waits for the promise
    runs. *)
Fixpoint launch (g : list Row) (k : Continuation) (t : Async unit) (l : Loop)
  : Loop :=
  match t with
  | Now f t' => launch g k t' (set_now l (f (now l)))
  | Await q r => set_queue l (queue l ++ [mkCall g k q r])
  | Settled (Ok _) => fulfilled k l
  | Settled (Throw _) => set_stage l Rejected
  end.

(** The ['data'] listener. *)
Definition data_listener (row : Row) (l : Loop) : Loop :=
  (* currentBatch.push(row) *)
  let batch := buffer l ++ [row] in
  if (batchSize <=? length batch)%nat then
    (* stream.pause(); processBatch([...currentBatch]).then(...) *)
    launch batch ThenResume (Async.processBatch batch)
      (mkLoop (unread l) false (end_due l) batch (queue l)
              (handed l ++ [batch]) (stage l) (now l))
  else
    mkLoop (unread l) (stream_flowing l) (end_due l) batch (queue l)
           (handed l) (stage l) (now l).

(** The ['end'] listener. *)
Definition end_listener (l : Loop) : Loop :=
  if (0 <? length (buffer l))%nat then
    (* await processBatch(currentBatch) *)
    launch (buffer l) EndTail (Async.processBatch (buffer l))
      (mkLoop (unread l) (stream_flowing l) false (buffer l) (queue l)
              (handed l ++ [buffer l]) Ended (now l))
  else
    end_tail (mkLoop (unread l) (stream_flowing l) false (buffer l) (queue l)
                     (handed l) Ended (now l)).

(** The stream hands out a record: [rest] is what it has left, [eof] says
    whether it knows by now that the file has ended, in which case ['end'] is
    due on the next tick, whether or not the listener pauses the stream. *)
Definition hand_out (rest : list Row) (eof : bool) (l : Loop) : Loop :=
  mkLoop rest (stream_flowing l) eof (buffer l) (queue l) (handed l)
         (stage l) (now l).

Section EventLoop.
Context `{PgInput}.

(** A call run on its own, every reply taken as it comes. *)
Fixpoint alone {A} (t : Async A) (w : World) : Result A * World :=
  match t with
  | Settled r => (r, w)
  | Await q k =>
      let (r, st) := pg_execute q (client w) in
      alone (k r) (mkWorld st (sent w ++ [q]) (processedRows w) (console w))
  | Now f k => alone k (f w)
  end.

(** The number of statements it sends then. *)
Fixpoint awaits {A} (t : Async A) (w : World) : nat :=
  match t with
  | Settled r => 0
  | Await q k =>
      let (r, st) := pg_execute q (client w) in
      S (awaits (k r) (mkWorld st (sent w ++ [q]) (processedRows w) (console w)))
  | Now f k => awaits k (f w)
  end.

(** The server replies to the oldest statement of the queue, and the call
    that awaits the reply goes on. *)
Definition reply (c : Call) (rest : list Call) (l : Loop) : Loop :=
  let (r, st) := pg_execute (call_query c) (client (now l)) in
  launch (call_batch c) (call_then c) (call_resume c r)
    (set_now (set_queue l rest)
       (mkWorld st (sent (now l) ++ [call_query c]) (processedRows (now l))
                (console (now l)))).

(** One turn of the event loop.  The stream hands out a record only while
    it is flowing.  It emits ['end'] once: on the tick after it handed out
    its last record, when it knew by then that the file had ended, and
    otherwise when it is flowing and drained.  Replies come in later turns
    than an ['end'] that is due.  Once the client has ended no reply is
    looked at. *)
Inductive turn : Loop -> Loop -> Prop :=
| turn_data l row rest eof :
    stage l = Streaming -> stream_flowing l = true -> end_due l = false ->
    unread l = row :: rest -> (eof = true -> rest = []) ->
    turn l (data_listener row (hand_out rest eof l))
| turn_end l :
    stage l = Streaming -> unread l = [] ->
    end_due l = true \/ stream_flowing l = true ->
    turn l (end_listener l)
| turn_reply l c rest :
    stage l = Streaming \/ stage l = Ended -> end_due l = false ->
    queue l = c :: rest ->
    turn l (reply c rest l).

(** The same as a function of what the stream knows at its last record:
    [eof] says whether the end of the file is known to the stream when it
    hands out the last record. *)
Definition next (eof : bool) (l : Loop) : option Loop :=
  match stage l with
  | Streaming =>
      if end_due l then
        match unread l with
        | [] => Some (end_listener l)
        | _ :: _ => None
        end
      else
        match queue l with
        | c :: rest => Some (reply c rest l)
        | [] =>
            if stream_flowing l then
              match unread l with
              | row :: rest =>
                  Some (data_listener row
                          (hand_out rest
                             (eof && match rest with [] => true | _ => false end)
                             l))
              | [] => Some (end_listener l)
              end
            else None
        end
  | Ended =>
      if end_due l then None
      else
        match queue l with
        | c :: rest => Some (reply c rest l)
        | [] => None
        end
  | Closed | Rejected => None
  end.

Fixpoint play (eof : bool) (fuel : nat) (l : Loop) : Loop :=
  match fuel with
  | 0 => l
  | S fuel' =>
      match next eof l with
      | Some l' => play eof fuel' l'
      | None => l
      end
  end.

(** The state in which the first record can arrive. *)
Definition boot (src : list Row) (w : World) : Loop :=
  mkLoop src true false [] [] [] Streaming (log LogConnected w).

(** The whole run over the records [src], statement by statement.  A
    turn hands out a record, ends the stream or takes a reply; a call sends
    at most four statements for each of its records and three more; at most
    one group is handed over twice. *)
Definition populate (eof : bool) (src : list Row) (w : World) : Loop :=
  play eof (12 * length src + 8) (boot src w).

(** The states a run can pass through. *)
Inductive reachable (l0 : Loop) : Loop -> Prop :=
| reach_start : reachable l0 l0
| reach_turn l l' : reachable l0 l -> turn l l' -> reachable l0 l'.

End EventLoop.

(** The last record of the source fills a group. *)
Definition ends_full (src : list Row) : bool :=
  (0 <? length src)%nat && (length src mod batchSize =? 0)%nat.

(** What the loop is left with when a call launched in [l] has settled
    with outcome [r]. *)
Definition finish (k : Continuation) (r : Result unit * World) (l : Loop) : Loop :=
  match r with
  | (Ok _, w') => fulfilled k (set_now l w')
  | (Throw _, w') => set_stage (set_now l w') Rejected
  end.

(** What holds of the event loop between any two callbacks. *)
Definition loop_inv (l : Loop) : Prop :=
  (end_due l = true -> unread l = []) /\
  match stage l with
  | Streaming =>
      (stream_flowing l = true /\ queue l = [] /\ length (buffer l) < batchSize) \/
      (stream_flowing l = false /\ length (buffer l) = batchSize /\
       exists c, queue l = [c] /\ call_then c = ThenResume /\
                 call_batch c = buffer l)
  | _ =>
      length (queue l) <= 2 /\ length (buffer l) <= batchSize /\
      (length (queue l) = 2 -> Forall (fun c => call_batch c = buffer l) (queue l))
  end.

(** The world of a fresh process against a freshly created schema. *)
Definition fresh_world : World := mkWorld empty_store [] 0 [].

(** ** A reference input conversion for the examples

    Plain decimal literals and [YYYY-MM-DD hh:mm:ss] timestamps, which is
    all the examples below contain.  A timestamp is held as the number
    [YYYYMMDDhhmmss]. *)

Definition digit_val (c : Ascii.ascii) : option Z :=
  let n := Ascii.nat_of_ascii c in
  if (48 <=? n)%nat && (n <=? 57)%nat then Some (Z.of_nat (n - 48)) else None.

Fixpoint digits_val (s : string) (acc : Z) : option Z :=
  match s with
  | EmptyString => Some acc
  | String c s' =>
      match digit_val c with
      | Some d => digits_val s' (10 * acc + d)%Z
      | None => None
      end
  end.

(** Splits off a leading sign. *)
Definition signed (s : string) : Z * string :=
  match s with
  | String c s' =>
      if Ascii.eqb c "-"%char then ((-1)%Z, s')
      else if Ascii.eqb c "+"%char then (1%Z, s')
      else (1%Z, s)
  | EmptyString => (1%Z, s)
  end.

Definition decimal_integer (s : string) : option Z :=
  let (sg, body) := signed s in
  match body with
  | EmptyString => None
  | _ =>
      match digits_val body 0 with
      | Some v =>
          let z := (sg * v)%Z in
          if (-2147483648 <=? z)%Z && (z <=? 2147483647)%Z then Some z else None
      | None => None
      end
  end.

(** The text before the first [sep], and the text after it. *)
Fixpoint split_at (sep : Ascii.ascii) (s : string) : string * option string :=
  match s with
  | EmptyString => (EmptyString, None)
  | String c s' =>
      if Ascii.eqb c sep then (EmptyString, Some s')
      else let (a, b) := split_at sep s' in (String c a, b)
  end.

Definition decimal_numeric (s : string) : option Z :=
  let (sg, body) := signed s in
  let (ip, fp) := split_at "."%char body in
  let frac := match fp with Some f => f | None => EmptyString end in
  match ip with
  | EmptyString => None
  | _ =>
      match digits_val ip 0, digits_val (str_take 2 (frac ++ "00")%string) 0,
            digits_val (str_drop 2 frac) 0 with
      | Some i, Some h, Some _ =>
          let up := match digit_val (match str_drop 2 frac with
                                     | String c _ => c
                                     | EmptyString => "0"%char
                                     end) with
                    | Some d => if (5 <=? d)%Z then 1%Z else 0%Z
                    | None => 0%Z
                    end in
          let v := (100 * i + h + up)%Z in
          if (v <? 10000000000)%Z then Some (sg * v)%Z else None
      | _, _, _ => None
      end
  end.

Definition iso_timestamp (s : string) : option Z :=
  match s with
  | String y1 (String y2 (String y3 (String y4 (String "-"%char
    (String m1 (String m2 (String "-"%char (String d1 (String d2 (String " "%char
    (String h1 (String h2 (String ":"%char (String n1 (String n2 (String ":"%char
    (String s1 (String s2 EmptyString)))))))))))))))))) =>
      digits_val (String y1 (String y2 (String y3 (String y4 (String m1
                 (String m2 (String d1 (String d2 (String h1 (String h2
                 (String n1 (String n2 (String s1 (String s2 EmptyString))))))))))))))
                 0
  | _ => None
  end.

Definition decimal_input : PgInput :=
  {| pg_integer := decimal_integer;
     pg_numeric := decimal_numeric;
     pg_timestamp := iso_timestamp |}.

Fixpoint assoc {B} (tbl : list (string * B)) (s : string) : option B :=
  match tbl with
  | [] => None
  | (k, b) :: tbl' => if String.eqb k s then Some b else assoc tbl' s
  end.

(** [f], read off the table [tbl] where the table has an entry. *)
Definition override {B} (tbl : list (string * B)) (f : string -> option B)
    (s : string) : option B :=
  match assoc tbl s with
  | Some b => Some b
  | None => f s
  end.

(** An input conversion with some of its values tabulated. *)
Definition with_values (I : PgInput) (ints nums stamps : list (string * Z))
  : PgInput :=
  {| pg_integer := override ints (@pg_integer I);
     pg_numeric := override nums (@pg_numeric I);
     pg_timestamp := override stamps (@pg_timestamp I) |}.

(** ** Notions used in the statements *)

(** INSERT ... ON CONFLICT (key) DO NOTHING on one table. *)
Definition upsert {V} (k : string) (v : V) (m : gmap string V) : gmap string V :=
  match m !! k with
  | Some _ => m
  | None => <[k := v]> m
  end.

(** The flag bound to [$5] of the invoice statement of a record. *)
Definition is_cancelled_of (row : Row) : bool :=
  match InvoiceNo row with
  | Some s => str_startsWith s "C"
  | None => false
  end.

(** The statements of one pass through the loop body, when none fails. *)
Definition row_queries (row : Row) : list Query :=
  (if truthy (CustomerID row)
   then [InsertCustomer (CustomerID row) (Country row)] else []) ++
  (if truthy (StockCode row) && truthy (Description row)
   then [InsertProduct (StockCode row) (Description row)] else []) ++
  (if truthy (InvoiceNo row)
   then [InsertInvoice (InvoiceNo row) (CustomerID row) (InvoiceDate row)
           (Country row) (is_cancelled_of row)] else []) ++
  (if truthy (InvoiceNo row) && truthy (StockCode row)
   then [InsertItem (InvoiceNo row) (StockCode row) (Quantity row)
           (UnitPrice row)] else []).

Definition batch_queries (batch : list Row) : list Query :=
  concat (map row_queries batch).

Definition is_insert (q : Query) : bool :=
  match q with
  | BEGIN | COMMIT | ROLLBACK => false
  | _ => true
  end.

(** The tables of the schema and their foreign keys. *)
Inductive Table := Customers | Products | Invoices | InvoiceItems.

Definition target (q : Query) : option Table :=
  match q with
  | InsertCustomer _ _ => Some Customers
  | InsertProduct _ _ => Some Products
  | InsertInvoice _ _ _ _ _ => Some Invoices
  | InsertItem _ _ _ _ => Some InvoiceItems
  | _ => None
  end.

(** [references a b]: table [a] has a foreign key into table [b]. *)
Definition references (a b : Table) : bool :=
  match a, b with
  | Invoices, Customers => true
  | InvoiceItems, Invoices => true
  | InvoiceItems, Products => true
  | _, _ => false
  end.

(** An item row whose two references are set and resolve in [T]. *)
Definition item_resolves (T : Tables) (it : ItemRow) : Prop :=
  exists inv sc,
    it_invoice_id it = Some inv /\ is_Some (invoices T !! inv) /\
    it_stock_code it = Some sc /\ is_Some (products T !! sc).

(** The snapshot a transaction block would return to. *)
Definition snapshot (t : Txn) : option Tables :=
  match t with
  | Idle => None
  | Active s | Failed s => Some s
  end.

(** The last statement sent was COMMIT. *)
Definition committed (w : World) : bool :=
  match last (sent w) with
  | Some COMMIT => true
  | _ => false
  end.

(** The counts printed by [console.log(`Processed ... rows...`)]. *)
Definition reports (c : list ConsoleLine) : list nat :=
  omap (fun l => match l with LogProcessed n => Some n | _ => None end) c.

(** A later run of the script: a new process, the same database. *)
Definition new_process (w : World) : World := mkWorld (client w) [] 0 [].

(** No row of [invoice_items] has an id the sequence has yet to hand out. *)
Definition ids_below (st : Store) : Prop :=
  forall id it, invoice_items (tables st) !! id = Some it -> (id <= items_seq st)%Z.

(** Every key of a dimension table of [T] is a key of that table in [T']. *)
Definition covers (T T' : Tables) : Prop :=
  (forall k, is_Some (customers T !! k) -> is_Some (customers T' !! k)) /\
  (forall k, is_Some (products T !! k) -> is_Some (products T' !! k)) /\
  (forall k, is_Some (invoices T !! k) -> is_Some (invoices T' !! k)).

Section Notions.
Context `{PgInput}.

(** The world in which the loop of [processBatch] starts: BEGIN has been
    sent on an idle session. *)
Definition begun (w : World) : World :=
  mkWorld (mkStore (tables (client w)) (items_seq (client w))
                   (Active (tables (client w))))
          (sent w ++ [BEGIN]) (processedRows w) (console w).

(** The outcome of the loop of [processBatch] over [batch]. *)
Definition loop_of (batch : list Row) (w : World) : Result unit * World :=
  for_of batch processRow (begun w).

(** The world after [await processBatch(g)]. *)
Definition after (g : list Row) (w : World) : World := (processBatch g w).2.

(** The world after the groups [gs] went through the loader one by one. *)
Definition load_all (gs : list (list Row)) (w : World) : World :=
  foldl (fun w g => after g w) w gs.



(** The groups the accumulator forms when its buffer holds [buf] and
    the stream still has [src] to emit. *)
Fixpoint batches (buf src : list Row) : list (list Row) :=
  match src with
  | [] => if (0 <? length buf)%nat then [buf] else []
  | row :: rest =>
      let b := buf ++ [row] in
      if (batchSize <=? length b)%nat then b :: batches [] rest
      else batches b rest
  end.

(** The tables a run has left in the store. *)
Definition stored (m : Machine) : Tables := tables (client (world m)).

(** The script run on an empty store, and run once more after that. *)
Definition first_run (src : list Row) : Machine :=
  populateDatabase src fresh_world.

Definition second_run (src : list Row) : Machine :=
  populateDatabase src (new_process (world (first_run src))).


End Notions.

(** The number of rows a statement adds to [invoice_items] when it succeeds. *)
Definition items_added (q : Query) : nat :=
  match q with
  | InsertItem _ _ _ _ => 1
  | _ => 0
  end.

(** A statement on [invoice_items] with both of its references set. *)
Definition item_refs_set (q : Query) : bool :=
  match q with
  | InsertItem a b _ _ => truthy a && truthy b
  | _ => true
  end.

(** The rows of [invoice_items] in [T'] under an id that is free in [T]
    have both references set and resolving in [T']. *)
Definition new_items_resolve (T T' : Tables) : Prop :=
  forall id it,
    invoice_items T !! id = None -> invoice_items T' !! id = Some it ->
    item_resolves T' it.

(** The rows of [invoice_items] stay as they are. *)
Definition items_kept (T T' : Tables) : Prop :=
  forall id it, invoice_items T !! id = Some it -> invoice_items T' !! id = Some it.

(** ** Further notions: what a run keeps, and what a group can fail on *)



(** A record for which the loop body sends nothing. *)
Definition blank (row : Row) : bool :=
  negb (truthy (CustomerID row)) && negb (truthy (InvoiceNo row))
  && negb (truthy (StockCode row) && truthy (Description row)).

(** A record for which the loop body sends the line-item statement. *)
Definition has_item (row : Row) : bool :=
  truthy (InvoiceNo row) && truthy (StockCode row).

Section Malformed.
Context `{PgInput}.

(** A record with a value the server rejects whatever the tables hold:
    an invoice number too long for its column or a date that is no
    timestamp, on a record with an invoice number; a quantity that is no
    integer or a price that is no number, on a record with a line item. *)
Definition malformed (row : Row) : Prop :=
  (truthy (InvoiceNo row) = true /\
   (nullable (varchar 20) (InvoiceNo row) = None \/
    nullable pg_timestamp (InvoiceDate row) = None)) \/
  (has_item row = true /\
   (nullable pg_integer (Quantity row) = None \/
    nullable pg_numeric (UnitPrice row) = None)).

End Malformed.


(** The row a statement on a dimension table is about is in [T]. *)
Definition key_in (q : Query) (T : Tables) : Prop :=
  match q with
  | InsertCustomer a _ =>
      exists k, nullable (varchar 20) a = Some (Some k) /\ is_Some (customers T !! k)
  | InsertProduct a _ =>
      exists k, nullable (varchar 20) a = Some (Some k) /\ is_Some (products T !! k)
  | InsertInvoice a _ _ _ _ =>
      exists k, nullable (varchar 20) a = Some (Some k) /\ is_Some (invoices T !! k)
  | _ => True
  end.

(** ** The HTTP API (app.js)

    Each route handler is a function from the request values it reads and
    the tables to its response and the tables it leaves.  A handler runs
    against the store in one piece (requests are not interleaved), and
    [pool.query] runs each statement on an idle session of its own. *)

(** What the handlers see of JavaScript numbers, and of the arrays and
    objects a JSON body can hold: whether a number is zero, the text
    node-postgres sends for a value, and the number it makes of an INTEGER
    column.  The development is parametric in them. *)
Class JsData := {
  JsNumber : Type;
  number_is_zero : JsNumber -> bool;
  number_text : JsNumber -> string;
  number_of_int : Z -> JsNumber;
  JsObject : Type;
  object_text : JsObject -> string
}.

(** SQLSTATE, the [code] of a database error. *)
Definition sqlstate (e : PgError) : string :=
  match e with
  | NotNullViolation => "23502"
  | StringTooLong => "22001"
  | InvalidTextRepresentation => "22P02"
  | UniqueViolation => "23505"
  | ForeignKeyViolation => "23503"
  | InFailedTransaction => "25P02"
  end.

(** The [details] of an error body: absent, a text, or the message of a
    database error. *)
Inductive Details :=
| NoDetails
| Text (s : string)
| Message (e : PgError).

Inductive Body :=
| NoBody
| ErrorBody (error : string) (details : Details)
| ProductBody (stock_code : string) (row : ProductRow)
| CustomerBody (customer_id : string) (row : CustomerRow)
| InvoiceBody (invoice_id : string) (row : InvoiceRow)
| ItemBody (id : Z) (row : ItemRow)
| SalesBody (rows : list (option Z * option Z)).

Record Response := mkResponse {
  status : nat;
  body : Body
}.

Section JsValues.
Context `{JsData}.

(** A value of a parsed JSON body; [JsUndefined] for a field the body
    does not have. *)
Inductive JsValue :=
| JsUndefined
| JsNull
| JsBool (b : bool)
| JsNum (x : JsNumber)
| JsString (s : string)
| JsObj (o : JsObject).

(** [!!v] *)
Definition js_truthy (v : JsValue) : bool :=
  match v with
  | JsUndefined | JsNull => false
  | JsBool b => b
  | JsNum x => negb (number_is_zero x)
  | JsString EmptyString => false
  | JsString (String _ _) => true
  | JsObj _ => true
  end.

(** [v === undefined] *)
Definition is_undefined (v : JsValue) : bool :=
  match v with
  | JsUndefined => true
  | _ => false
  end.

(** The parameter node-postgres binds for a value: NULL for [undefined]
    and [null], otherwise its text. *)
Definition prepareValue (v : JsValue) : option string :=
  match v with
  | JsUndefined | JsNull => None
  | JsBool true => Some "true"
  | JsBool false => Some "false"
  | JsNum x => Some (number_text x)
  | JsString s => Some s
  | JsObj o => Some (object_text o)
  end.

End JsValues.

(** Some row of [invoice_items] references the product [k]. *)
Definition product_referenced (k : string) (T : Tables) : bool :=
  negb (bool_decide
          (map_Forall (fun (_ : Z) it => it_stock_code it <> Some k)
                      (invoice_items T))).

Section Api.
Context `{PgInput} `{JsData}.
(** [process.env.NODE_ENV === 'development'] *)
Variable development : bool.

(** INSERT INTO products (stock_code, description) VALUES ($1, $2)
    RETURNING * *)
Definition api_insert_product (p1 p2 : option string) (T : Tables)
  : PgError + (string * ProductRow * Tables) :=
  match nullable (varchar 20) p1 with
  | None => inl StringTooLong
  | Some None => inl NotNullViolation
  | Some (Some k) =>
      match products T !! k with
      | Some _ => inl UniqueViolation
      | None =>
          let row := mkProduct p2 (Some 0%Z) in
          inr (k, row, set_products T (<[k := row]> (products T)))
      end
  end.

(** UPDATE products SET description = $1, popularity_score = $2
    WHERE stock_code = $3 RETURNING * *)
Definition api_update_product (p1 p2 : option string) (k : string) (T : Tables)
  : PgError + (list (string * ProductRow) * Tables) :=
  match nullable pg_integer p2 with
  | None => inl InvalidTextRepresentation
  | Some score =>
      match products T !! k with
      | None => inr ([], T)
      | Some _ =>
          let row := mkProduct p1 score in
          inr ([(k, row)], set_products T (<[k := row]> (products T)))
      end
  end.

(** DELETE FROM products WHERE stock_code = $1, with its row count *)
Definition api_delete_product (k : string) (T : Tables)
  : PgError + (nat * Tables) :=
  match products T !! k with
  | None => inr (0, T)
  | Some _ =>
      if product_referenced k T then inl ForeignKeyViolation
      else inr (1, set_products T (delete k (products T)))
  end.

(** The 500 answer of a [catch] block. *)
Definition failed (error : string) (e : PgError) : Response :=
  mkResponse 500 (ErrorBody error (if development then Message e else NoDetails)).

(** app.post('/api/products') *)
Definition post_api_products (stock_code description : JsValue) (T : Tables)
  : Response * Tables :=
  if negb (js_truthy stock_code) || negb (js_truthy description) then
    (mkResponse 400 (ErrorBody "Bad Request"
                       (Text "stock_code and description are required")), T)
  else
    match api_insert_product (prepareValue stock_code) (prepareValue description) T with
    | inr (k, row, T') => (mkResponse 201 (ProductBody k row), T')
    | inl e =>
        if String.eqb (sqlstate e) "23505" then
          (mkResponse 409 (ErrorBody "Conflict"
                             (Text "Product with this stock_code already exists")), T)
        else (failed "Failed to create product" e, T)
    end.

(** app.get('/api/products/:stock_code') *)
Definition get_api_product (stock_code : string) (T : Tables) : Response :=
  match products T !! stock_code with
  | None =>
      mkResponse 404
        (ErrorBody "Product not found"
           (Text ("No product found with stock_code: " ++ stock_code)%string))
  | Some row => mkResponse 200 (ProductBody stock_code row)
  end.

(** app.put('/api/products/:stock_code') *)
Definition put_api_product (stock_code : string)
    (description popularity_score : JsValue) (T : Tables) : Response * Tables :=
  (* First verify the product exists *)
  match products T !! stock_code with
  | None =>
      (mkResponse 404
         (ErrorBody "Product not found"
            (Text ("No product found with stock_code: " ++ stock_code)%string)), T)
  | Some currentProduct =>
      (* Validate at least one field is provided to update *)
      if negb (js_truthy description) && is_undefined popularity_score then
        (mkResponse 400
           (ErrorBody "Bad Request"
              (Text "At least one field (description or popularity_score) must be provided for update")),
         T)
      else
        (* description || currentProduct.description *)
        let p1 := if js_truthy description then prepareValue description
                  else p_description currentProduct in
        (* popularity_score !== undefined ? popularity_score
                                          : currentProduct.popularity_score *)
        let p2 := if is_undefined popularity_score
                  then option_map (fun z => number_text (number_of_int z))
                                  (p_popularity_score currentProduct)
                  else prepareValue popularity_score in
        match api_update_product p1 p2 stock_code T with
        | inr (rows, T') =>
            (mkResponse 200 (match rows with
                             | (k, row) :: _ => ProductBody k row
                             | [] => NoBody
                             end), T')
        | inl e => (failed "Failed to update product" e, T)
        end
  end.

(** app.delete('/api/products/:stock_code') *)
Definition delete_api_product (stock_code : string) (T : Tables)
  : Response * Tables :=
  match api_delete_product stock_code T with
  | inr (rowCount, T') =>
      if Nat.eqb rowCount 0 then
        (mkResponse 404
           (ErrorBody "Product not found"
              (Text ("No product found with stock_code: " ++ stock_code)%string)), T')
      else (mkResponse 204 NoBody, T')
  | inl e =>
      if String.eqb (sqlstate e) "23503" then
        (mkResponse 409
           (ErrorBody "Conflict"
              (Text "Cannot delete product referenced by invoice_items")), T)
      else (failed "Failed to delete product" e, T)
  end.

(** app.get('/api/customers/:customer_id') *)
Definition get_api_customer (customer_id : string) (T : Tables) : Response :=
  match customers T !! customer_id with
  | None =>
      mkResponse 404
        (ErrorBody "Customer not found"
           (Text ("No customer found with ID: " ++ customer_id)%string))
  | Some row => mkResponse 200 (CustomerBody customer_id row)
  end.

(** app.get('/api/invoices/:invoice_id') *)
Definition get_api_invoice (invoice_id : string) (T : Tables) : Response :=
  match invoices T !! invoice_id with
  | None =>
      mkResponse 404
        (ErrorBody "Invoice not found"
           (Text ("No invoice found with ID: " ++ invoice_id)%string))
  | Some row => mkResponse 200 (InvoiceBody invoice_id row)
  end.

(** app.get('/api/invoice-items/:id'): the path segment is bound to
    [WHERE id = $1] and converted to INTEGER by the server. *)
Definition get_api_invoice_item (id : string) (T : Tables) : Response :=
  match pg_integer id with
  | None => failed "Failed to fetch invoice item" InvalidTextRepresentation
  | Some z =>
      match invoice_items T !! z with
      | None =>
          mkResponse 404
            (ErrorBody "Invoice item not found"
               (Text ("No invoice item found with ID: " ++ id)%string))
      | Some row => mkResponse 200 (ItemBody z row)
      end
  end.

End Api.

(** ** The monthly sales report (GET /api/sales/monthly)

    [SELECT EXTRACT(MONTH FROM invoice_date) AS month,
            SUM(quantity * unit_price) AS total_sales
     FROM invoices i JOIN invoice_items ii ON i.invoice_id = ii.invoice_id
     WHERE NOT i.is_cancelled GROUP BY month ORDER BY month]

    Amounts are in hundredths, as the prices are; [None] is NULL. *)

Definition sumZ (l : list Z) : Z := foldr Z.add 0%Z l.

(** [quantity * unit_price] of a line item: NULL when either is. *)
Definition line_value (it : ItemRow) : option Z :=
  match it_quantity it, it_unit_price it with
  | Some q, Some p => Some (q * p)%Z
  | _, _ => None
  end.

(** ORDER BY month: ascending, NULL last. *)
Definition month_le (a b : option Z) : Prop :=
  match a, b with
  | Some x, Some y => (x <= y)%Z
  | _, None => True
  | None, Some _ => False
  end.

Global Instance month_le_dec a b : Decision (month_le a b).
Proof. destruct a, b; simpl; apply _. Defined.

(** SUM over the lines of one month: NULL when no line has a value. *)
Definition month_total (m : option Z) (lines : list (option Z * option Z))
  : option Z :=
  match omap snd (filter (fun l => l.1 = m) lines) with
  | [] => None
  | vs => Some (sumZ vs)
  end.

Section Sales.
(** EXTRACT(MONTH FROM t) for a stored timestamp [t]. *)
Variable month_of : Z -> Z.

(** The row of the join for a line item, if it passes the WHERE: the
    line has an invoice, and that invoice has [is_cancelled] false. *)
Definition sales_line (T : Tables) (it : ItemRow) : option (option Z * option Z) :=
  match it_invoice_id it with
  | None => None
  | Some k =>
      match invoices T !! k with
      | None => None
      | Some inv =>
          match i_is_cancelled inv with
          | Some false =>
              Some (option_map month_of (i_invoice_date inv), line_value it)
          | _ => None
          end
      end
  end.

Definition sales_lines (T : Tables) : list (option Z * option Z) :=
  omap (fun kv => sales_line T kv.2) (map_to_list (invoice_items T)).

(** The rows of the report. *)
Definition monthly_sales (T : Tables) : list (option Z * option Z) :=
  let lines := sales_lines T in
  map (fun m => (m, month_total m lines))
      (merge_sort month_le (remove_dups (lines.*1))).

(** app.get('/api/sales/monthly') *)
Definition get_api_sales_monthly (T : Tables) : Response :=
  mkResponse 200 (SalesBody (monthly_sales T)).

End Sales.

(** Every line item with a stock code has its product. *)
Definition items_have_products (T : Tables) : Prop :=
  forall id it k,
    invoice_items T !! id = Some it -> it_stock_code it = Some k ->
    is_Some (products T !! k).

(** ** Example records *)

(** The first two records of the end-to-end example. *)
Definition ex_row1 : Row :=
  mkRow (Some "536365") (Some "85123A")
        (Some "WHITE HANGING HEART T-LIGHT HOLDER") (Some "6")
        (Some "2010-12-01 08:26:00") (Some "2.55") (Some "17850")
        (Some "United Kingdom").

Definition ex_row2 : Row :=
  mkRow (Some "C536366") (Some "85123A") None (Some "-1")
        (Some "2010-12-01 08:28:00") (Some "2.55") (Some "17850")
        (Some "United Kingdom").

(** The third record: the stock code is empty; the fields the example
    leaves open are [description] and [unit_price], the others are as in
    the records before it. *)
Definition ex_row3 (description unit_price : option string) : Row :=
  mkRow (Some "536367") (Some "") description (Some "3")
        (Some "2010-12-01 08:34:00") unit_price (Some "17850")
        (Some "United Kingdom").

(** A line item for a product that no record describes. *)
Definition ex_orphan : Row :=
  mkRow (Some "536368") (Some "22960") (Some "") (Some "6")
        (Some "2010-12-01 08:34:00") (Some "4.25") (Some "17850")
        (Some "United Kingdom").

(** A later record that does describe that product. *)
Definition ex_late : Row :=
  mkRow (Some "536369") (Some "22960") (Some "JAM MAKING SET WITH JARS")
        (Some "6") (Some "2010-12-01 08:35:00") (Some "4.25") (Some "17850")
        (Some "United Kingdom").

(** A source of 1001 records: the first group of 1000 ends with the
    orphan line item, the second group is the record that describes its
    product. *)
Definition ex_two_groups : list Row :=
  repeat ex_row1 999 ++ [ex_orphan; ex_late].

(** A sale without customer: the CustomerID cell of the line is empty. *)
Definition ex_guest : Row :=
  mkRow (Some "536544") (Some "21773") (Some "DECORATIVE ROSE BATHROOM BOTTLE")
        (Some "1") (Some "2010-12-01 14:32:00") (Some "2.51") (Some "")
        (Some "United Kingdom").

(** The same sale from a line that stops before the CustomerID cell. *)
Definition ex_guest_short : Row :=
  mkRow (Some "536544") (Some "21773") (Some "DECORATIVE ROSE BATHROOM BOTTLE")
        (Some "1") (Some "2010-12-01 14:32:00") (Some "2.51") None None.

(** A record whose quantity is no integer. *)
Definition ex_bad_quantity : Row :=
  mkRow (Some "536370") (Some "85123A") (Some "") (Some "six")
        (Some "2010-12-01 08:45:00") (Some "2.55") (Some "")
        (Some "United Kingdom").

(** An empty line of the file, and a line of empty cells. *)
Definition ex_empty_line : Row := mkRow None None None None None None None None.

Definition ex_empty_cells : Row :=
  mkRow (Some "") (Some "") (Some "") (Some "") (Some "") (Some "") (Some "")
        (Some "").

(** JavaScript numbers that are integers, with their decimal text; an
    object is given by its JSON text. *)
Definition integer_numbers : JsData :=
  {| JsNumber := Z;
     number_is_zero := Z.eqb 0;
     number_text := fun z => NilZero.string_of_int (Z.to_int z);
     number_of_int := fun z => z;
     JsObject := string;
     object_text := fun s => s |}.

(** The month of a timestamp as [iso_timestamp] reads it. *)
Definition iso_month (t : Z) : Z := (t / 100000000 mod 100)%Z.

(** * Properties *)

(** ** The monad *)

Lemma bind_eq {A B} (m : M A) (k : A -> M B) w :
  (m ≫= k) w = match m w with
               | (Ok a, w') => k a w'
               | (Throw e, w') => (Throw e, w')
               end.
Proof. reflexivity. Qed.

Lemma for_of_app {A} (l1 l2 : list A) (body : A -> M unit) w :
  for_of (l1 ++ l2) body w =
  match for_of l1 body w with
  | (Ok _, w') => for_of l2 body w'
  | (Throw e, w') => (Throw e, w')
  end.
Proof.
  revert w. induction l1 as [|x l1 IH]; intros w; simpl.
  - reflexivity.
  - rewrite !bind_eq. destruct (body x w) as [[[]|e] w']; auto.
Qed.

Lemma for_of_concat {A B} (f : A -> list B) (body : B -> M unit) (l : list A) w :
  for_of l (fun x => for_of (f x) body) w = for_of (concat (map f l)) body w.
Proof.
  revert w. induction l as [|x l IH]; intros w; simpl.
  - reflexivity.
  - rewrite for_of_app, bind_eq.
    destruct (for_of (f x) body w) as [[[]|e] w']; auto.
Qed.

Section LoaderFacts.
Context `{PgInput}.
Local Arguments str_startsWith : simpl never.

Lemma when_query c q w :
  when c (client_query q) w = for_of (if c then [q] else []) client_query w.
Proof.
  destruct c; simpl; [|reflexivity].
  rewrite bind_eq. destruct (client_query q w) as [[[]|e] w']; reflexivity.
Qed.

Lemma when_invoice row w :
  when (truthy (InvoiceNo row))
    (isCancelled ← startsWith (InvoiceNo row) "C";
     client_query (InsertInvoice (InvoiceNo row) (CustomerID row)
                     (InvoiceDate row) (Country row) isCancelled)) w =
  for_of (if truthy (InvoiceNo row)
          then [InsertInvoice (InvoiceNo row) (CustomerID row) (InvoiceDate row)
                  (Country row) (is_cancelled_of row)] else [])
         client_query w.
Proof.
  unfold is_cancelled_of. destruct (InvoiceNo row) as [[|c s]|]; simpl; try reflexivity.
  rewrite !bind_eq. unfold startsWith. simpl.
  match goal with
  | |- context [client_query ?q w] =>
      destruct (client_query q w) as [[[]|e] w']; reflexivity
  end.
Qed.

Lemma bind_ext {A B} (m m' : M A) (k k' : A -> M B) w :
  (forall w, m w = m' w) -> (forall a w, k a w = k' a w) ->
  (m ≫= k) w = (m' ≫= k') w.
Proof.
  intros Hm Hk. rewrite !bind_eq, Hm.
  destruct (m' w) as [[a|e] w']; auto.
Qed.

Lemma for_of_seq {A} (l1 l2 : list A) (body : A -> M unit) w :
  (for_of l1 body ≫= λ _, for_of l2 body) w = for_of (l1 ++ l2) body w.
Proof. rewrite for_of_app, bind_eq. reflexivity. Qed.

(** The loop body sends the statements of [row_queries], in that order,
    up to the first that fails. *)
Lemma processRow_queries row w :
  processRow row w = for_of (row_queries row) client_query w.
Proof.
  unfold processRow, row_queries.
  rewrite <- for_of_seq.
  apply bind_ext; [apply when_query|]; intros _ w1. rewrite <- for_of_seq.
  apply bind_ext; [apply when_query|]; intros _ w2. rewrite <- for_of_seq.
  apply bind_ext; [apply when_invoice|]; intros _ w3.
  apply when_query.
Qed.

Lemma batch_loop_queries batch w :
  for_of batch processRow w = for_of (batch_queries batch) client_query w.
Proof.
  unfold batch_queries. rewrite <- for_of_concat.
  revert w. induction batch as [|r l IH]; intros w; simpl; [reflexivity|].
  rewrite !bind_eq, processRow_queries.
  destruct (for_of (row_queries r) client_query w) as [[[]|e] w']; auto.
Qed.

Lemma client_query_insert q w snap :
  is_insert q = true -> txn (client w) = Active snap ->
  client_query q w =
  match run_insert q (tables (client w)) (items_seq (client w)) with
  | (inr T', seq') =>
      (Ok tt, mkWorld (mkStore T' seq' (Active snap)) (sent w ++ [q])
                      (processedRows w) (console w))
  | (inl e, seq') =>
      (Throw (DatabaseError e),
       mkWorld (mkStore (tables (client w)) seq' (Failed snap)) (sent w ++ [q])
               (processedRows w) (console w))
  end.
Proof.
  intros Hq Ht. unfold client_query, pg_execute. rewrite Ht.
  destruct q; try discriminate Hq;
    match goal with
    | |- context [run_insert ?q ?T ?s] =>
        destruct (run_insert q T s) as [[e|T'] seq']; reflexivity
    end.
Qed.

Lemma row_queries_insert row : Forall (fun q => is_insert q = true) (row_queries row).
Proof.
  unfold row_queries.
  repeat (apply Forall_app; split);
    match goal with |- Forall _ (if ?c then _ else _) => destruct c end;
    repeat constructor.
Qed.

Lemma batch_queries_insert batch :
  Forall (fun q => is_insert q = true) (batch_queries batch).
Proof.
  unfold batch_queries. induction batch as [|r l IH]; simpl.
  - constructor.
  - apply Forall_app. split; [apply row_queries_insert | exact IH].
Qed.

(** Inside a transaction block, a run of INSERTs leaves the block open
    with its snapshot, failed exactly when one of them failed; it touches
    neither the counter nor the console. *)
Lemma inserts_in_block qs : forall w snap r w',
  Forall (fun q => is_insert q = true) qs ->
  txn (client w) = Active snap ->
  for_of qs client_query w = (r, w') ->
  processedRows w' = processedRows w /\ console w' = console w /\
  (exists sent', sent w' = sent w ++ sent' /\
                 Forall (fun q => is_insert q = true) sent') /\
  match r with
  | Ok _ => txn (client w') = Active snap
  | Throw e => txn (client w') = Failed snap /\ exists pe, e = DatabaseError pe
  end.
Proof.
  induction qs as [|q qs IH]; intros w snap r w' Hins Ht Hrun; simpl in Hrun.
  - inversion Hrun; subst. repeat split; auto.
    exists []. rewrite app_nil_r. auto.
  - inversion Hins as [|? ? Hq Hqs]; subst.
    rewrite bind_eq, (client_query_insert q w snap Hq Ht) in Hrun.
    destruct (run_insert q (tables (client w)) (items_seq (client w)))
      as [[e|T'] seq'].
    + inversion Hrun; subst; simpl. repeat split; eauto.
    + apply IH with (snap := snap) in Hrun; auto.
      simpl in Hrun. destruct Hrun as (Hp & Hc & (s' & Hs & Hf) & Hr).
      repeat split; auto.
      exists (q :: s'). split.
      * rewrite Hs, <- app_assoc. reflexivity.
      * constructor; auto.
Qed.

Lemma client_query_begin w :
  txn (client w) = Idle -> client_query BEGIN w = (Ok tt, begun w).
Proof. intros Ht. unfold client_query, pg_execute, begun. rewrite Ht. reflexivity. Qed.

(** [processBatch] when the loop runs through: COMMIT, count, report. *)
Lemma processBatch_commit batch w w1 :
  txn (client w) = Idle ->
  loop_of batch w = (Ok tt, w1) ->
  processBatch batch w =
  (Ok tt, mkWorld (mkStore (tables (client w1)) (items_seq (client w1)) Idle)
                  (sent w1 ++ [COMMIT]) (processedRows w + length batch)
                  (console w ++ [LogProcessed (processedRows w + length batch)])).
Proof.
  intros Hidle Hloop. unfold loop_of in Hloop.
  pose proof Hloop as Hl. rewrite batch_loop_queries in Hl.
  apply inserts_in_block with (snap := tables (client w)) in Hl;
    [|apply batch_queries_insert|reflexivity].
  destruct Hl as (Hp & Hc & _ & Ht). simpl in Hp, Hc.
  unfold processBatch, try_catch.
  rewrite bind_eq, client_query_begin by assumption.
  rewrite bind_eq, Hloop.
  rewrite bind_eq. unfold client_query at 1, pg_execute. rewrite Ht. simpl.
  rewrite Hp, Hc. reflexivity.
Qed.

(** [processBatch] when a statement of the loop fails: ROLLBACK, log. *)
Lemma processBatch_rollback batch w e w1 :
  txn (client w) = Idle ->
  loop_of batch w = (Throw e, w1) ->
  processBatch batch w =
  (Ok tt, mkWorld (mkStore (tables (client w)) (items_seq (client w1)) Idle)
                  (sent w1 ++ [ROLLBACK]) (processedRows w)
                  (console w ++ [ErrProcessingBatch e])).
Proof.
  intros Hidle Hloop. unfold loop_of in Hloop.
  pose proof Hloop as Hl. rewrite batch_loop_queries in Hl.
  apply inserts_in_block with (snap := tables (client w)) in Hl;
    [|apply batch_queries_insert|reflexivity].
  destruct Hl as (Hp & Hc & _ & Ht & _). simpl in Hp, Hc.
  unfold processBatch, try_catch.
  rewrite bind_eq, client_query_begin by assumption.
  rewrite bind_eq, Hloop.
  rewrite bind_eq. unfold client_query at 1, pg_execute. rewrite Ht. simpl.
  unfold console_error, console_log. rewrite Hp, Hc. reflexivity.
Qed.

End LoaderFacts.

(** ** The accumulator *)

Section AccumulatorFacts.
Context `{PgInput}.

Lemma batchSize_pos : 0 < batchSize.
Proof. unfold batchSize. lia. Qed.

#[local] Opaque batchSize.

(** [processBatch] catches whatever its body throws: its promise is
    always fulfilled. *)
Lemma processBatch_fulfilled batch w : (processBatch batch w).1 = Ok tt.
Proof.
  unfold processBatch, try_catch.
  match goal with |- context [match ?b w with _ => _ end] =>
    destruct (b w) as [[[]|e] w1] end; [reflexivity|].
  rewrite bind_eq. unfold client_query, pg_execute.
  destruct (txn (client w1)); reflexivity.
Qed.

Lemma processBatch_after batch w : processBatch batch w = (Ok tt, after batch w).
Proof.
  unfold after. pose proof (processBatch_fulfilled batch w) as Hf.
  destruct (processBatch batch w) as [r w']. simpl in *. congruence.
Qed.

Lemma settle_after g k rest m :
  settle g k rest m = continue k (set_world (set_pending m rest) (after g (world m))).
Proof. unfold settle. rewrite processBatch_after. reflexivity. Qed.

Ltac machine_simpl :=
  cbn [source flowing currentBatch pending calls phase world
       set_world set_pending set_source set_phase continue app].

Lemma run_step fuel m m' : step m = Some m' -> run (S fuel) m = run fuel m'.
Proof. intros Hs. simpl. rewrite Hs. reflexivity. Qed.

Lemma run_closed fuel m : phase m = Closed -> pending m = [] -> run fuel m = m.
Proof.
  intros Hph Hp. destruct fuel; simpl; [reflexivity|].
  unfold step. rewrite Hph, Hp. reflexivity.
Qed.

Lemma load_all_cons g gs w : load_all (g :: gs) w = load_all gs (after g w).
Proof. reflexivity. Qed.

Lemma load_all_app gs1 gs2 w : load_all (gs1 ++ gs2) w = load_all gs2 (load_all gs1 w).
Proof. unfold load_all. apply foldl_app. Qed.

(** From a flowing stream with nothing pending, the run ends closed, after
    the groups of [batches] went through the loader one after the other. *)
Lemma run_from src : forall buf cs w fuel,
  length buf < batchSize -> 2 * length src + 2 <= fuel ->
  let m := run fuel (mkMachine src true buf [] cs Streaming w) in
  phase m = Closed /\ pending m = [] /\ source m = [] /\
  calls m = cs ++ batches buf src /\
  world m = log LogCompleted (load_all (batches buf src) w).
Proof.
  induction src as [|row rest IH]; intros buf cs w fuel Hbuf Hfuel; cbv zeta.
  - destruct fuel as [|[|fuel]]; cbn [length] in Hfuel; try lia.
    rewrite run_step with (m' := on_end (mkMachine [] true buf [] cs Streaming w))
      by reflexivity.
    unfold on_end; machine_simpl. cbn [batches].
    destruct (0 <? length buf)%nat.
    + rewrite run_step
        with (m' := settle buf EndTail []
                      (mkMachine [] true buf [(buf, EndTail)] (cs ++ [buf]) Ended w))
        by reflexivity.
      rewrite settle_after. unfold on_end_tail; machine_simpl.
      rewrite run_closed by reflexivity. cbn. auto.
    + unfold on_end_tail, set_phase; machine_simpl.
      rewrite run_closed by reflexivity. cbn. rewrite app_nil_r. auto.
  - destruct fuel as [|[|fuel]]; cbn [length] in Hfuel; try lia.
    rewrite run_step
      with (m' := on_data row (mkMachine rest true buf [] cs Streaming w))
      by reflexivity.
    unfold on_data; machine_simpl. cbn [batches].
    destruct (Nat.leb_spec batchSize (length (buf ++ [row]))) as [Hle|Hlt].
    + rewrite run_step
        with (m' := settle (buf ++ [row]) ThenResume []
                      (mkMachine rest false (buf ++ [row])
                         [(buf ++ [row], ThenResume)] (cs ++ [buf ++ [row]])
                         Streaming w))
        by reflexivity.
      rewrite settle_after; machine_simpl.
      specialize (IH [] (cs ++ [buf ++ [row]]) (after (buf ++ [row]) w) fuel).
      cbv zeta in IH.
      destruct IH as (H1 & H2 & H3 & H4 & H5); [apply batchSize_pos | lia |].
      rewrite H4, H5, <- app_assoc, load_all_cons. auto.
    + specialize (IH (buf ++ [row]) cs w (S fuel)). cbv zeta in IH.
      apply IH; [assumption | lia].
Qed.

(** The run of [populateDatabase], in one piece. *)
Lemma populateDatabase_run src w :
  let m := populateDatabase src w in
  phase m = Closed /\ pending m = [] /\ source m = [] /\
  calls m = batches [] src /\
  world m = log LogCompleted (load_all (batches [] src) (log LogConnected w)).
Proof.
  unfold populateDatabase, start.
  apply (run_from src [] [] (log LogConnected w)); [apply batchSize_pos | lia].
Qed.



End AccumulatorFacts.

(** ** The event loop, statement by statement *)

Ltac loop_simpl :=
  cbn [unread stream_flowing end_due buffer queue handed stage now
       set_now set_queue set_stage fulfilled end_tail hand_out app].

Section EventLoopFacts.
Context `{PgInput}.
#[local] Opaque batchSize.

Lemma alone_bind {A B} (m : Async A) (k : A -> Async B) w :
  alone (Async.bind m k) w =
  match alone m w with
  | (Ok a, w') => alone (k a) w'
  | (Throw e, w') => (Throw e, w')
  end.
Proof.
  revert w. induction m as [[a|e]|q r IH|f m IH]; intros w; simpl;
    try reflexivity.
  - destruct (pg_execute q (client w)) as [x st]. apply IH.
  - apply IH.
Qed.

Lemma alone_try_catch {A} (m : Async A) (h : Exn -> Async A) w :
  alone (Async.try_catch m h) w =
  match alone m w with
  | (Ok a, w') => (Ok a, w')
  | (Throw e, w') => alone (h e) w'
  end.
Proof.
  revert w. induction m as [[a|e]|q r IH|f m IH]; intros w; simpl;
    try reflexivity.
  - destruct (pg_execute q (client w)) as [x st]. apply IH.
  - apply IH.
Qed.

Lemma alone_client_query q w :
  alone (Async.client_query q) w = client_query q w.
Proof.
  unfold Async.client_query, client_query. simpl.
  destruct (pg_execute q (client w)) as [[e|] st]; reflexivity.
Qed.

Lemma alone_when c q w :
  alone (Async.when c (Async.client_query q)) w = when c (client_query q) w.
Proof. destruct c; simpl; [apply alone_client_query | reflexivity]. Qed.

(** [alone] turns the sequencing of [Async] into that of [M]. *)
Lemma alone_seq {A B} (m : Async A) (k : A -> Async B) (m' : M A) (k' : A -> M B) w :
  alone m w = m' w ->
  (forall a w', alone (k a) w' = k' a w') ->
  alone (mbind k m) w = mbind k' m' w.
Proof.
  intros Hm Hk. unfold mbind at 1, Async.Async_bind. rewrite alone_bind, Hm.
  unfold mbind, M_bind. destruct (m' w) as [[a|e] w']; [apply Hk | reflexivity].
Qed.

Lemma alone_processRow row w :
  alone (Async.processRow row) w = processRow row w.
Proof.
  unfold Async.processRow, processRow.
  apply alone_seq; [apply alone_when|]. intros _ w1.
  apply alone_seq; [apply alone_when|]. intros _ w2.
  apply alone_seq.
  - destruct (truthy (InvoiceNo row)); [|reflexivity]. simpl.
    apply alone_seq.
    + destruct (InvoiceNo row); reflexivity.
    + intros b w3. apply alone_client_query.
  - intros _ w3. apply alone_when.
Qed.

Lemma alone_for_of rows w :
  alone (Async.for_of rows Async.processRow) w = for_of rows processRow w.
Proof.
  revert w. induction rows as [|row rows IH]; intros w; [reflexivity|].
  cbn [Async.for_of for_of]. apply alone_seq; [apply alone_processRow|].
  intros _ w'. apply IH.
Qed.

(** A call of [processBatch] that no other call interferes with does what
    [processBatch] does in one piece. *)
Lemma alone_processBatch batch w :
  alone (Async.processBatch batch) w = processBatch batch w.
Proof.
  unfold Async.processBatch, processBatch.
  rewrite alone_try_catch. unfold try_catch.
  match goal with |- match alone ?b w with _ => _ end = match ?b' w with _ => _ end =>
    assert (Hb : alone b w = b' w) end.
  { apply alone_seq; [apply alone_client_query|]. intros _ w1.
    apply alone_seq; [apply alone_for_of|]. intros _ w2.
    apply alone_seq; [apply alone_client_query|]. intros _ w3.
    reflexivity. }
  rewrite Hb.
  match goal with |- match ?b' w with _ => _ end = _ => destruct (b' w) as [[a|e] w'] end;
    [reflexivity|].
  apply alone_seq; [apply alone_client_query|]. intros _ w1. reflexivity.
Qed.

Lemma awaits_bind {A B} (m : Async A) (k : A -> Async B) w :
  awaits (Async.bind m k) w =
  awaits m w + match alone m w with
               | (Ok a, w') => awaits (k a) w'
               | (Throw e, w') => 0
               end.
Proof.
  revert w. induction m as [[a|e]|q r IH|f m IH]; intros w; simpl;
    try reflexivity.
  - destruct (pg_execute q (client w)) as [x st]. rewrite IH. reflexivity.
  - apply IH.
Qed.

Lemma awaits_try_catch {A} (m : Async A) (h : Exn -> Async A) w :
  awaits (Async.try_catch m h) w =
  awaits m w + match alone m w with
               | (Ok a, w') => 0
               | (Throw e, w') => awaits (h e) w'
               end.
Proof.
  revert w. induction m as [[a|e]|q r IH|f m IH]; intros w; simpl;
    try reflexivity.
  - destruct (pg_execute q (client w)) as [x st]. rewrite IH. reflexivity.
  - apply IH.
Qed.

Lemma awaits_seq {A B} (m : Async A) (k : A -> Async B) a b w :
  awaits m w <= a -> (forall x w', awaits (k x) w' <= b) ->
  awaits (mbind k m) w <= a + b.
Proof.
  intros Hm Hk. unfold mbind, Async.Async_bind. rewrite awaits_bind.
  destruct (alone m w) as [[x|e] w']; [specialize (Hk x w')|]; lia.
Qed.

Lemma awaits_client_query q w : awaits (Async.client_query q) w = 1.
Proof.
  unfold Async.client_query. simpl.
  destruct (pg_execute q (client w)) as [[e|] st]; reflexivity.
Qed.

Lemma awaits_when c q w : awaits (Async.when c (Async.client_query q)) w <= 1.
Proof. destruct c; cbn [Async.when]; [rewrite awaits_client_query | simpl]; lia. Qed.

Lemma awaits_processRow row w : awaits (Async.processRow row) w <= 4.
Proof.
  unfold Async.processRow.
  apply (awaits_seq _ _ 1 3); [apply awaits_when|]. intros _ w1.
  apply (awaits_seq _ _ 1 2); [apply awaits_when|]. intros _ w2.
  apply (awaits_seq _ _ 1 1); [|intros _ w3; apply awaits_when].
  destruct (truthy (InvoiceNo row)); [|simpl; lia]. simpl.
  apply (awaits_seq _ _ 0 1).
  - destruct (InvoiceNo row); simpl; lia.
  - intros b w3. rewrite awaits_client_query. lia.
Qed.

Lemma awaits_for_of rows w :
  awaits (Async.for_of rows Async.processRow) w <= 4 * length rows.
Proof.
  revert w. induction rows as [|row rows IH]; intros w; [simpl; lia|].
  cbn [Async.for_of length].
  replace (4 * S (length rows)) with (4 + 4 * length rows) by lia.
  apply awaits_seq; [apply awaits_processRow|]. intros _ w'. apply IH.
Qed.

(** A call sends at most four statements for each record, BEGIN, and the
    statement that ends the block. *)
Lemma awaits_processBatch batch w :
  awaits (Async.processBatch batch) w <= 4 * length batch + 3.
Proof.
  unfold Async.processBatch. rewrite awaits_try_catch.
  match goal with |- awaits ?b w + match alone ?b w with _ => _ end <= _ =>
    assert (Hb : awaits b w <= 1 + (4 * length batch + 1)) end.
  { apply awaits_seq; [rewrite awaits_client_query; lia|]. intros _ w1.
    apply awaits_seq; [apply awaits_for_of|]. intros _ w2.
    apply (awaits_seq _ _ 1 0); [rewrite awaits_client_query; lia|].
    intros _ w3. simpl. lia. }
  match goal with |- _ + match ?x with _ => _ end <= _ =>
    destruct x as [[a|e] w'] end; [lia|].
  assert (Hh : awaits (Async.client_query ROLLBACK ;;
                       Async.console_error (ErrProcessingBatch e)) w' <= 1 + 0).
  { apply awaits_seq; [rewrite awaits_client_query; lia|]. intros _ w1. simpl. lia. }
  lia.
Qed.

Lemma next_turn eof l l' : next eof l = Some l' -> turn l l'.
Proof.
  unfold next. intros Hn.
  destruct (stage l) eqn:Hst; try discriminate.
  - destruct (end_due l) eqn:Hed.
    + destruct (unread l) eqn:Hu; inversion Hn; subst.
      apply turn_end; auto.
    + destruct (queue l) as [|c rest] eqn:Hq.
      * destruct (stream_flowing l) eqn:Hfl; [|discriminate].
        destruct (unread l) as [|row rest] eqn:Hu; inversion Hn; subst.
        -- apply turn_end; auto.
        -- apply turn_data; auto.
           destruct rest; [reflexivity|].
           rewrite andb_false_r. discriminate.
      * inversion Hn; subst. apply turn_reply; auto.
  - destruct (end_due l) eqn:Hed; [discriminate|].
    destruct (queue l) as [|c rest] eqn:Hq; inversion Hn; subst.
    apply turn_reply; auto.
Qed.

(** The turns taken by [play] are turns of the event loop. *)
Lemma play_reachable l0 eof fuel : forall l,
  reachable l0 l -> reachable l0 (play eof fuel l).
Proof.
  induction fuel as [|fuel IH]; intros l Hr; simpl; [exact Hr|].
  destruct (next eof l) as [l'|] eqn:Hn; [|exact Hr].
  apply IH. eapply reach_turn; [exact Hr | eapply next_turn; exact Hn].
Qed.

Lemma play_step eof fuel l l' :
  next eof l = Some l' -> play eof (S fuel) l = play eof fuel l'.
Proof. intros Hn. simpl. rewrite Hn. reflexivity. Qed.

Lemma play_closed eof fuel l : stage l = Closed -> play eof fuel l = l.
Proof.
  intros Hst. destruct fuel; simpl; [reflexivity|].
  unfold next. rewrite Hst. reflexivity.
Qed.

Lemma closed_is_final l l' : stage l = Closed -> ~ turn l l'.
Proof.
  intros Hst Ht.
  destruct Ht as [l row rest eof Hs _ _ _ _ | l Hs _ _ | l c rest [Hs|Hs] _ _];
    congruence.
Qed.

(** A call launched with nothing else in the queue runs to its end as it
    would alone, one turn for each statement. *)
Lemma play_launch eof g k t : forall l fuel,
  queue l = [] -> end_due l = false ->
  stage l = Streaming \/ stage l = Ended ->
  play eof (awaits t (now l) + fuel) (launch g k t l)
  = play eof fuel (finish k (alone t (now l)) l).
Proof.
  induction t as [[a|e]|q r IH|f t IH]; intros l fuel Hq Hed Hst.
  - destruct l; reflexivity.
  - destruct l; reflexivity.
  - destruct l as [u fl ed bf qu hd sg nw]. cbn in Hq, Hed, Hst. subst qu ed.
    cbn [launch awaits alone now queue set_queue app unread stream_flowing
         end_due buffer handed stage].
    destruct (pg_execute q (client nw)) as [x st] eqn:Hx.
    cbn [Nat.add]. erewrite play_step.
    2:{ unfold next. cbn [stage end_due queue].
        destruct Hst as [-> | ->]; reflexivity. }
    unfold reply. cbn [call_query now call_batch call_then call_resume set_queue].
    rewrite Hx.
    specialize (IH x (mkLoop u fl false bf [] hd sg
                        (mkWorld st (sent nw ++ [q]) (processedRows nw) (console nw)))
                   fuel eq_refl eq_refl Hst).
    cbn [now] in IH.
    cbv [set_now set_queue unread stream_flowing end_due buffer queue handed stage now].
    rewrite IH. reflexivity.
  - destruct l as [u fl ed bf qu hd sg nw]. cbn in Hq, Hed, Hst. subst qu ed.
    cbn [launch awaits alone now set_now unread stream_flowing end_due buffer
         handed stage queue].
    specialize (IH (mkLoop u fl false bf [] hd sg (f nw)) fuel eq_refl eq_refl Hst).
    cbn [now] in IH.
    cbv [set_now set_queue unread stream_flowing end_due buffer queue handed stage now].
    rewrite IH. reflexivity.
Qed.

(** The same for a call of [processBatch]. *)
Lemma play_processBatch eof g k l fuel :
  queue l = [] -> end_due l = false ->
  stage l = Streaming \/ stage l = Ended ->
  4 * length g + 3 <= fuel ->
  exists fuel',
    fuel - (4 * length g + 3) <= fuel' /\
    play eof fuel (launch g k (Async.processBatch g) l)
    = play eof fuel' (fulfilled k (set_now l (after g (now l)))).
Proof.
  intros Hq Hed Hst Hfuel.
  pose proof (awaits_processBatch g (now l)) as Hb.
  exists (fuel - awaits (Async.processBatch g) (now l)). split; [lia|].
  replace fuel with (awaits (Async.processBatch g) (now l)
                     + (fuel - awaits (Async.processBatch g) (now l))) at 1 by lia.
  rewrite play_launch by assumption.
  rewrite alone_processBatch, processBatch_after. reflexivity.
Qed.


(** From a flowing stream with nothing in flight, the run ends closed,
    after the groups of [batches] went through the loader one after the
    other, unless the last record fills a group and the stream knows at that
    record that the file has ended. *)
Lemma play_from eof src : forall buf cs w d fuel,
  length buf < batchSize -> 8 * length src + 4 * length buf + 4 <= fuel ->
  (d = true -> src = []) ->
  (eof = false \/ src = [] \/ (length buf + length src) mod batchSize <> 0) ->
  let l := play eof fuel (mkLoop src true d buf [] cs Streaming w) in
  stage l = Closed /\ queue l = [] /\ unread l = [] /\
  handed l = cs ++ batches buf src /\
  now l = log LogCompleted (load_all (batches buf src) w).
Proof.
  pose proof batchSize_pos as Hpos.
  induction src as [|row rest IH]; intros buf cs w d fuel Hbuf Hfuel Hd Hc;
    cbv zeta; cbn [length] in Hfuel.
  - destruct fuel as [|fuel]; [lia|].
    rewrite play_step
      with (l' := end_listener (mkLoop [] true d buf [] cs Streaming w)).
    2:{ unfold next; cbn. destruct d; reflexivity. }
    unfold end_listener. loop_simpl. cbn [batches].
    destruct (0 <? length buf)%nat eqn:Hb.
    + destruct (play_processBatch eof buf EndTail
                  (mkLoop [] true false buf [] (cs ++ [buf]) Ended w) fuel
                  eq_refl eq_refl) as (fuel' & _ & ->);
        [right; reflexivity | lia |].
      loop_simpl. rewrite play_closed by reflexivity. cbn. auto.
    + rewrite play_closed by reflexivity. cbn. rewrite app_nil_r. auto.
  - destruct d; [specialize (Hd eq_refl); discriminate|].
    destruct fuel as [|fuel]; [lia|].
    rewrite play_step
      with (l' := data_listener row
                    (hand_out rest
                       (eof && match rest with [] => true | _ => false end)
                       (mkLoop (row :: rest) true false buf [] cs Streaming w)))
      by reflexivity.
    unfold data_listener. loop_simpl. cbn [batches].
    destruct (Nat.leb_spec batchSize (length (buf ++ [row]))) as [Hle|Hlt];
      rewrite length_app in *; cbn [length] in *.
    + assert (He : eof && match rest with [] => true | _ => false end = false).
      { destruct eof; [|reflexivity]. destruct rest; [|reflexivity].
        exfalso. destruct Hc as [Hc | [Hc | Hc]]; try discriminate.
        apply Hc. cbn [length].
        replace (length buf + 1) with (0 + 1 * batchSize) by lia.
        rewrite Nat.Div0.mod_add. apply Nat.Div0.mod_0_l. }
      rewrite He.
      destruct (play_processBatch eof (buf ++ [row]) ThenResume
                  (mkLoop rest false false (buf ++ [row]) []
                     (cs ++ [buf ++ [row]]) Streaming w) fuel
                  eq_refl eq_refl) as (fuel' & Hf' & ->);
        [left; reflexivity | rewrite length_app; cbn [length]; lia |].
      rewrite length_app in Hf'; cbn [length] in Hf'.
      loop_simpl.
      specialize (IH [] (cs ++ [buf ++ [row]]) (after (buf ++ [row]) w) false fuel').
      cbv zeta in IH.
      destruct IH as (H1 & H2 & H3 & H4 & H5).
      * cbn [length]. lia.
      * cbn [length]. lia.
      * discriminate.
      * destruct Hc as [Hc | [Hc | Hc]]; [auto | discriminate |].
        destruct rest as [|r rest']; [auto|]. right. right.
        cbn [length Nat.add] in *. intros Hm. apply Hc.
        replace (length buf + S (S (length rest')))
          with (S (length rest') + 1 * batchSize) by lia.
        rewrite Nat.Div0.mod_add. exact Hm.
      * rewrite H4, H5, <- app_assoc, load_all_cons. auto.
    + specialize (IH (buf ++ [row]) cs w
                     (eof && match rest with [] => true | _ => false end) fuel).
      cbv zeta in IH. apply IH.
      * rewrite length_app; cbn [length]. lia.
      * rewrite length_app; cbn [length]. lia.
      * destruct rest; [reflexivity|]. rewrite andb_false_r. discriminate.
      * destruct Hc as [Hc | [Hc | Hc]]; [auto | discriminate |].
        right. right. rewrite length_app; cbn [length].
        replace (length buf + 1 + length rest)
          with (length buf + S (length rest)) by lia. exact Hc.
Qed.

Lemma launch_handed g k t : forall l, handed (launch g k t l) = handed l.
Proof.
  induction t as [[a|e]|q r IH|f t IH]; intros l; cbn [launch].
  - destruct k; reflexivity.
  - reflexivity.
  - reflexivity.
  - rewrite IH. reflexivity.
Qed.

Lemma launch_stage g k t : forall l,
  stage l <> Streaming -> stage (launch g k t l) <> Streaming.
Proof.
  induction t as [[a|e]|q r IH|f t IH]; intros l Hst; cbn [launch].
  - destruct k; [exact Hst | discriminate].
  - discriminate.
  - exact Hst.
  - apply IH. exact Hst.
Qed.

(** Once the ['end'] listener has been entered, [processBatch] is not
    called again. *)
Lemma handed_after_end eof fuel : forall l,
  stage l <> Streaming -> handed (play eof fuel l) = handed l.
Proof.
  induction fuel as [|fuel IH]; intros l Hst; cbn [play]; [reflexivity|].
  destruct (next eof l) as [l'|] eqn:Hn; [|reflexivity].
  unfold next in Hn. destruct (stage l) eqn:Hs; try discriminate; try congruence.
  destruct (end_due l); [discriminate|].
  destruct (queue l) as [|c rest]; inversion Hn; subst.
  unfold reply. destruct (pg_execute (call_query c) (client (now l))) as [x st].
  rewrite IH.
  - rewrite launch_handed. reflexivity.
  - apply launch_stage. cbn. rewrite Hs. discriminate.
Qed.

(** The first thing a call of [processBatch] does is to send BEGIN. *)
Lemma launch_processBatch g k l :
  exists r, launch g k (Async.processBatch g) l
            = set_queue l (queue l ++ [mkCall g k BEGIN r]).
Proof. eexists. reflexivity. Qed.

(** When the last record fills a group and the stream knows at that record
    that the file has ended, that group is handed to [processBatch] twice:
    by the ['data'] listener and, a tick later, by the ['end'] listener. *)
Lemma play_from_full src : forall buf cs w fuel,
  length buf < batchSize -> 8 * length src + 4 * length buf + 4 <= fuel ->
  src <> [] -> (length buf + length src) mod batchSize = 0 ->
  let l := play true fuel (mkLoop src true false buf [] cs Streaming w) in
  exists g, last (batches buf src) = Some g /\
            handed l = cs ++ batches buf src ++ [g].
Proof.
  pose proof batchSize_pos as Hpos.
  induction src as [|row rest IH]; intros buf cs w fuel Hbuf Hfuel Hne Hm;
    cbv zeta; cbn [length] in Hfuel; [congruence|].
  destruct fuel as [|fuel]; [lia|].
  rewrite play_step
    with (l' := data_listener row
                  (hand_out rest (match rest with [] => true | _ => false end)
                     (mkLoop (row :: rest) true false buf [] cs Streaming w)))
    by reflexivity.
  unfold data_listener. loop_simpl. cbn [batches].
  destruct (Nat.leb_spec batchSize (length (buf ++ [row]))) as [Hle|Hlt];
    rewrite length_app in *; cbn [length] in *.
  - destruct rest as [|r rest'].
    + destruct (launch_processBatch (buf ++ [row]) ThenResume
                  (mkLoop [] false true (buf ++ [row]) []
                     (cs ++ [buf ++ [row]]) Streaming w)) as (rA & ->).
      loop_simpl.
      destruct fuel as [|fuel]; [lia|].
      erewrite play_step by reflexivity.
      rewrite handed_after_end.
      * exists (buf ++ [row]). split; [reflexivity|].
        unfold end_listener. loop_simpl.
        replace (0 <? length (buf ++ [row]))%nat with true
          by (symmetry; apply Nat.ltb_lt; rewrite length_app; cbn [length]; lia).
        rewrite launch_handed. cbn [handed]. rewrite <- app_assoc. reflexivity.
      * unfold end_listener. loop_simpl.
        destruct (0 <? length (buf ++ [row]))%nat;
          [apply launch_stage|]; cbn; discriminate.
    + destruct (play_processBatch true (buf ++ [row]) ThenResume
                  (mkLoop (r :: rest') false false (buf ++ [row]) []
                     (cs ++ [buf ++ [row]]) Streaming w) fuel
                  eq_refl eq_refl) as (fuel' & Hf' & ->);
        [left; reflexivity | rewrite length_app; cbn [length]; lia |].
      rewrite length_app in Hf'; cbn [length] in Hf'.
      loop_simpl.
      specialize (IH [] (cs ++ [buf ++ [row]]) (after (buf ++ [row]) w) fuel').
      cbv zeta in IH.
      destruct IH as (g & Hg & Hh).
      * cbn [length]. lia.
      * cbn [length] in *. lia.
      * discriminate.
      * cbn [length Nat.add] in *.
        replace (length buf + S (S (length rest')))
          with (S (length rest') + 1 * batchSize) in Hm by lia.
        rewrite Nat.Div0.mod_add in Hm. exact Hm.
      * exists g. split.
        -- rewrite last_cons, Hg. reflexivity.
        -- rewrite Hh, <- !app_assoc. reflexivity.
  - destruct rest as [|r rest'].
    + exfalso. cbn [length] in Hm. rewrite Nat.mod_small in Hm by lia. lia.
    + specialize (IH (buf ++ [row]) cs w fuel). cbv zeta in IH.
      apply IH.
      * rewrite length_app; cbn [length]. lia.
      * rewrite length_app; cbn [length] in *. lia.
      * discriminate.
      * rewrite length_app; cbn [length] in *.
        replace (length buf + 1 + S (length rest'))
          with (length buf + S (S (length rest'))) by lia. exact Hm.
Qed.

Lemma ends_full_false src :
  ends_full src = false -> src = [] \/ (0 + length src) mod batchSize <> 0.
Proof.
  unfold ends_full. intros He. apply andb_false_iff in He as [He|He].
  - left. apply Nat.ltb_ge in He. destruct src; [reflexivity | cbn in He; lia].
  - right. apply Nat.eqb_neq in He. exact He.
Qed.

Lemma ends_full_true src :
  ends_full src = true -> src <> [] /\ (0 + length src) mod batchSize = 0.
Proof.
  unfold ends_full. intros He. apply andb_true_iff in He as [Hn Hm].
  apply Nat.ltb_lt in Hn. apply Nat.eqb_eq in Hm.
  split; [destruct src; [cbn in Hn; lia | discriminate] | exact Hm].
Qed.

(** The run of [populate], in one piece, when no two calls overlap. *)
Lemma populate_run eof src w :
  eof = false \/ ends_full src = false ->
  let l := populate eof src w in
  stage l = Closed /\ queue l = [] /\ unread l = [] /\
  handed l = batches [] src /\
  now l = log LogCompleted (load_all (batches [] src) (log LogConnected w)).
Proof.
  intros Hc. unfold populate, boot.
  apply (play_from eof src [] [] (log LogConnected w) false).
  - apply batchSize_pos.
  - cbn [length]. lia.
  - discriminate.
  - destruct Hc as [Hc|Hc]; [auto|]. right. apply ends_full_false. exact Hc.
Qed.

Lemma launch_cases g k t : forall l,
  (exists q r w', launch g k t l
                  = set_queue (set_now l w') (queue l ++ [mkCall g k q r])) \/
  (exists w', launch g k t l = fulfilled k (set_now l w')) \/
  (exists w', launch g k t l = set_stage (set_now l w') Rejected).
Proof.
  induction t as [[a|e]|q r IH|f t IH]; intros l; cbn [launch].
  - right. left. exists (now l). destruct l; reflexivity.
  - right. right. exists (now l). destruct l; reflexivity.
  - left. exists q, r, (now l). destruct l; reflexivity.
  - destruct (IH (set_now l (f (now l)))) as [(q & r & w' & ->) | [(w' & ->) | (w' & ->)]].
    + left. exists q, r, w'. reflexivity.
    + right. left. exists w'. destruct k; reflexivity.
    + right. right. exists w'. reflexivity.
Qed.

Lemma loop_inv_boot src w : loop_inv (boot src w).
Proof.
  unfold loop_inv, boot; cbn. split; [discriminate|]. left.
  repeat split. apply batchSize_pos.
Qed.

Lemma loop_inv_turn l l' : loop_inv l -> turn l l' -> loop_inv l'.
Proof.
  pose proof batchSize_pos as Hpos.
  intros [Hdue Hinv] Ht.
  destruct Ht as [l row rest eof Hs Hfl Hed Hu Heof | l Hs Hu Hor | l c rest Hs Hed Hq].
  - rewrite Hs in Hinv.
    destruct Hinv as [(_ & Hq & Hlen) | (Hf & _)]; [|congruence].
    unfold data_listener. loop_simpl.
    destruct (Nat.leb_spec batchSize (length (buffer l ++ [row]))) as [Hle|Hlt];
      rewrite length_app in *; cbn [length] in *.
    + destruct (launch_processBatch (buffer l ++ [row]) ThenResume
                  (mkLoop rest false eof (buffer l ++ [row]) (queue l)
                     (handed l ++ [buffer l ++ [row]]) (stage l) (now l)))
        as (r & ->).
      unfold loop_inv. loop_simpl. split; [exact Heof|].
      rewrite Hs, Hq. right. split; [reflexivity|].
      split; [rewrite length_app; cbn [length]; lia|].
      eexists. split; [reflexivity|]. split; reflexivity.
    + unfold loop_inv. loop_simpl. split; [exact Heof|].
      rewrite Hs. left. rewrite length_app; cbn [length]. auto.
  - rewrite Hs in Hinv. unfold end_listener.
    destruct (0 <? length (buffer l))%nat eqn:Hb.
    + destruct (launch_processBatch (buffer l) EndTail
                  (mkLoop (unread l) (stream_flowing l) false (buffer l) (queue l)
                     (handed l ++ [buffer l]) Ended (now l))) as (r & ->).
      unfold loop_inv. loop_simpl. split; [discriminate|].
      destruct Hinv as [(_ & Hq & Hlen) | (_ & Hlen & c & Hq & _ & Hc)]; rewrite Hq.
      * cbn [app length]. split; [lia|]. split; [lia|]. intros; lia.
      * cbn [app length]. split; [lia|]. split; [lia|]. intros _.
        repeat constructor. exact Hc.
    + unfold loop_inv. loop_simpl. split; [discriminate|].
      destruct Hinv as [(_ & Hq & Hlen) | (_ & Hlen & c & Hq & _ & Hc)]; rewrite Hq;
        cbn [length]; (split; [lia|]); (split; [lia|]); intros; lia.
  - unfold reply.
    destruct (pg_execute (call_query c) (client (now l))) as [x st].
    set (w1 := mkWorld st (sent (now l) ++ [call_query c]) (processedRows (now l))
                       (console (now l))).
    destruct (launch_cases (call_batch c) (call_then c) (call_resume c x)
                (set_now (set_queue l rest) w1))
      as [(q & r & w' & ->) | [(w' & ->) | (w' & ->)]].
    + unfold loop_inv; loop_simpl; (split; [exact Hdue|]).
      destruct Hs as [Hs|Hs]; rewrite Hs in *.
      * destruct Hinv as [(_ & Hq' & _) | (Hf & Hlen & c0 & Hq' & Hk & Hc)];
          rewrite Hq' in Hq; [discriminate|]. inversion Hq; subst c0 rest.
        right. split; [exact Hf|]. split; [exact Hlen|].
        eexists. split; [reflexivity|]. split; [exact Hk | exact Hc].
      * destruct Hinv as (Hlq & Hlb & Hall). rewrite Hq in *. cbn [length] in *.
        rewrite length_app. cbn [length]. split; [lia|]. split; [exact Hlb|].
        intros H2. assert (Hr : length rest = 1) by lia.
        specialize (Hall ltac:(lia)). inversion Hall as [|? ? Hc Hrest]; subst.
        apply Forall_app. split; [exact Hrest|]. repeat constructor. exact Hc.
    + destruct Hs as [Hs|Hs]; rewrite Hs in *.
      * destruct Hinv as [(_ & Hq' & _) | (Hf & Hlen & c0 & Hq' & Hk & Hc)];
          rewrite Hq' in Hq; [discriminate|]. inversion Hq; subst c0 rest.
        rewrite Hk. unfold loop_inv; loop_simpl. split; [exact Hdue|].
        rewrite Hs. left. auto.
      * destruct Hinv as (Hlq & Hlb & Hall). rewrite Hq in *. cbn [length] in *.
        destruct (call_then c); unfold loop_inv; loop_simpl; rewrite ?Hs;
          (split; [exact Hdue|]);
          (split; [lia|]); (split; [cbn [length]; lia|]); intros; lia.
    + unfold loop_inv; loop_simpl; (split; [exact Hdue|]).
      destruct Hs as [Hs|Hs]; rewrite Hs in *.
      * destruct Hinv as [(_ & Hq' & _) | (Hf & Hlen & c0 & Hq' & Hk & Hc)];
          rewrite Hq' in Hq; [discriminate|]. inversion Hq; subst c0 rest.
        cbn [length]. split; [lia|]. split; [lia|]. intros; lia.
      * destruct Hinv as (Hlq & Hlb & Hall). rewrite Hq in *. cbn [length] in *.
        split; [lia|]. split; [lia|]. intros; lia.
Qed.

Lemma loop_inv_reachable l0 l : loop_inv l0 -> reachable l0 l -> loop_inv l.
Proof.
  intros H0 Hr. induction Hr as [|l l' _ IH Ht]; [assumption|].
  eapply loop_inv_turn; eauto.
Qed.

End EventLoopFacts.

(** ** The event loop: calls that overlap, and calls that do not *)

Section EventLoopClaims.
Context `{PgInput}.
#[local] Opaque batchSize.

(** X18: unless the last record fills a group while the stream knows that
    the file has ended, the run taken statement by statement is the run
    in which calls settle one at a time.  It is a sequence of turns of the
    event loop that ends with no turn left to take, the ['end'] listener run
    to its end and no call in flight; [processBatch] has been called on the
    same groups, and the session, the counter and the console are left the
    same. *)
Theorem calls_do_not_overlap eof src w :
  eof = false \/ ends_full src = false ->
  let l := populate eof src w in
  reachable (boot src w) l /\ (forall l', ~ turn l l') /\
  stage l = Closed /\ queue l = [] /\ unread l = [] /\
  handed l = calls (populateDatabase src w) /\
  now l = world (populateDatabase src w).
Proof.
  intros Hc. cbv zeta.
  destruct (populate_run eof src w Hc) as (H1 & H2 & H3 & H4 & H5).
  destruct (populateDatabase_run src w) as (_ & _ & _ & H6 & H7).
  split; [apply play_reachable, reach_start|].
  split; [intros l'; apply closed_is_final; exact H1|].
  repeat split; try assumption; congruence.
Qed.

(** X19: in every state a run can pass through, whatever the stream knows
    about the end of the file, the buffer holds at most [batchSize] records
    and at most two calls of [processBatch] are in flight.  Until the
    ['end'] listener runs at most one call is in flight, and the stream is
    paused while it is.  When two calls are in flight, both are calls on the
    records the buffer holds. *)
Theorem at_most_two_in_flight src w l :
  reachable (boot src w) l ->
  length (buffer l) <= batchSize /\
  length (queue l) <= 2 /\
  (stage l = Streaming ->
   length (queue l) <= 1 /\ (queue l <> [] -> stream_flowing l = false)) /\
  (length (queue l) = 2 ->
   Forall (fun c => call_batch c = buffer l) (queue l)).
Proof.
  intros Hr. apply loop_inv_reachable in Hr; [|apply loop_inv_boot].
  destruct Hr as [_ Hinv].
  destruct (stage l) eqn:Hs.
  - destruct Hinv as [(Hf & Hq & Hlen) | (Hf & Hlen & c & Hq & _ & _)];
      rewrite Hq; cbn [length].
    + split; [lia|]. split; [lia|]. split; [|intros; lia].
      intros _. split; [lia | congruence].
    + split; [lia|]. split; [lia|]. split; [|intros; lia].
      intros _. split; [lia | auto].
  - destruct Hinv as (Hq & Hb & Hall). repeat split; auto; discriminate.
  - destruct Hinv as (Hq & Hb & Hall). repeat split; auto; discriminate.
  - destruct Hinv as (Hq & Hb & Hall). repeat split; auto; discriminate.
Qed.

End EventLoopClaims.

(** ** The loader: one group, one transaction *)

Section LoaderClaims.
Context `{PgInput}.

Lemma committed_snoc_commit c s n l :
  committed (mkWorld c (s ++ [COMMIT]) n l) = true.
Proof. unfold committed; simpl. rewrite last_snoc. reflexivity. Qed.

Lemma committed_snoc_rollback c s n l :
  committed (mkWorld c (s ++ [ROLLBACK]) n l) = false.
Proof. unfold committed; simpl. rewrite last_snoc. reflexivity. Qed.

(** C1: on an idle session, [processBatch] is fulfilled and leaves the
    session idle.  If the loop over the group runs through, the tables are
    those the loop produced and the transaction is committed.  If any
    statement of the loop fails, the tables are exactly those from before
    the group (none of its rows is there), the failure is on the console, the
    counter is unchanged.  Either way the [then] callback runs: the stream
    is resumed for the next group. *)
Theorem processBatch_all_or_nothing batch w :
  txn (client w) = Idle ->
  exists w',
    processBatch batch w = (Ok tt, w') /\ txn (client w') = Idle /\
    match loop_of batch w with
    | (Ok _, w1) =>
        tables (client w') = tables (client w1) /\ committed w' = true
    | (Throw e, _) =>
        tables (client w') = tables (client w) /\ committed w' = false /\
        processedRows w' = processedRows w /\
        console w' = console w ++ [ErrProcessingBatch e]
    end /\
    forall m rest,
      world m = w -> phase m = Streaming ->
      pending m = (batch, ThenResume) :: rest ->
      exists m', step m = Some m' /\ phase m' = Streaming /\
                 flowing m' = true /\ currentBatch m' = [] /\ world m' = w'.
Proof.
  intros Hidle.
  assert (Hstep : forall w', processBatch batch w = (Ok tt, w') ->
            forall m rest, world m = w -> phase m = Streaming ->
            pending m = (batch, ThenResume) :: rest ->
            exists m', step m = Some m' /\ phase m' = Streaming /\
                       flowing m' = true /\ currentBatch m' = [] /\ world m' = w').
  { intros w' Hw' m rest Hw Hph Hpe. eexists. split.
    - unfold step. rewrite Hph, Hpe. unfold settle. rewrite Hw, Hw'. reflexivity.
    - simpl. auto. }
  destruct (loop_of batch w) as [[[]|e] w1] eqn:Hloop.
  - eexists. split; [apply processBatch_commit; eassumption|].
    split; [reflexivity|]. split.
    + split; [reflexivity | apply committed_snoc_commit].
    + apply Hstep. apply processBatch_commit; assumption.
  - eexists. split; [eapply processBatch_rollback; eassumption|].
    split; [reflexivity|]. split.
    + repeat split. apply committed_snoc_rollback.
    + apply Hstep. eapply processBatch_rollback; eassumption.
Qed.

End LoaderClaims.

(** ** The store: what one INSERT does *)

Ltac split_insert H :=
  unfold run_insert, insert_customer, insert_product, insert_invoice,
    insert_item in H;
  repeat match type of H with
         | context [match ?x with _ => _ end] => destruct x eqn:?
         | context [if ?x then _ else _] => destruct x eqn:?
         end;
  try discriminate H; inversion H; subst; clear H.

Ltac reuse_eqs :=
  repeat match goal with
         | H : ?x = _ |- context [match ?x with _ => _ end] => rewrite H
         | H : ?x = _ |- context [if ?x then _ else _] => rewrite H
         end.

Section StoreFacts.
Context `{PgInput}.

Lemma covers_refl T : covers T T.
Proof. repeat split; auto. Qed.

Lemma covers_trans T1 T2 T3 : covers T1 T2 -> covers T2 T3 -> covers T1 T3.
Proof. intros (A1 & A2 & A3) (B1 & B2 & B3). repeat split; auto. Qed.

Lemma is_Some_insert_mono {V} (m : gmap string V) k v k' :
  is_Some (m !! k') -> is_Some (<[k := v]> m !! k').
Proof.
  intros Hs. destruct (decide (k = k')) as [->|Hne].
  - rewrite lookup_insert_eq. eauto.
  - rewrite lookup_insert_ne; auto.
Qed.


Lemma nullable_truthy {B} (conv : string -> option B) v r :
  truthy v = true -> nullable conv v = Some r -> exists b, r = Some b.
Proof.
  destruct v as [s|]; [|discriminate]. simpl. intros _.
  destruct (conv s); simpl; intros Hr; inversion Hr; eauto.
Qed.

(** A successful INSERT removes nothing and changes no existing row of
    [invoice_items]; the sequence does not go back. *)
Lemma run_insert_mono q T seq T' seq' :
  run_insert q T seq = (inr T', seq') ->
  covers T T' /\ items_kept T T' /\
  seq' = (seq + Z.of_nat (items_added q))%Z /\
  size (invoice_items T') = size (invoice_items T) + items_added q.
Proof.
  intros Hr. destruct q; simpl in Hr;
    try (inversion Hr; subst; simpl; rewrite ?Z.add_0_r, ?Nat.add_0_r;
         repeat split; auto; fail);
    split_insert Hr; simpl; rewrite ?Z.add_0_r, ?Nat.add_0_r;
    try (repeat split; auto; fail);
    unfold covers, items_kept; simpl; repeat split; auto;
    try (intros; apply is_Some_insert_mono; assumption).
  - intros id it Hit. rewrite lookup_insert_ne; auto. congruence.
  - rewrite map_size_insert_None by assumption. lia.
Qed.

(** Rows added to [invoice_items] by a statement of the loader resolve. *)
Lemma run_insert_resolves q T seq T' seq' :
  item_refs_set q = true ->
  run_insert q T seq = (inr T', seq') ->
  new_items_resolve T T'.
Proof.
  intros Hg Hr. unfold new_items_resolve.
  destruct q; simpl in Hr;
    try (inversion Hr; subst; intros; congruence);
    try (split_insert Hr; simpl; intros; congruence).
  simpl in Hg. apply andb_true_iff in Hg as [Ha Hb].
  split_insert Hr; simpl.
  intros id it Hnone Hsome.
  destruct (decide ((seq + 1)%Z = id)) as [Heq|Hne];
    [subst id|rewrite lookup_insert_ne in Hsome by assumption; congruence].
  rewrite lookup_insert_eq in Hsome. inversion Hsome; subst; clear Hsome.
  match goal with
  | Hfk : _ && _ = true |- _ => apply andb_true_iff in Hfk as [Hi Hp]
  end.
  match goal with
  | H1 : nullable (varchar 20) invoice_id = Some ?a,
    H2 : nullable (varchar 20) stock_code = Some ?b |- _ =>
      destruct (nullable_truthy _ _ _ Ha H1) as [ki ->];
      destruct (nullable_truthy _ _ _ Hb H2) as [ks ->]
  end.
  simpl in Hi, Hp. apply bool_decide_eq_true in Hi, Hp.
  exists ki, ks. simpl. auto.
Qed.

Lemma item_resolves_covers T T' it :
  covers T T' -> item_resolves T it -> item_resolves T' it.
Proof.
  intros (_ & Hp & Hi) (inv & sc & H1 & H2 & H3 & H4).
  exists inv, sc. auto.
Qed.


End StoreFacts.

(** ** The loop inside its transaction block *)

Section BlockFacts.
Context `{PgInput}.

Lemma client_query_ok q w snap w' :
  is_insert q = true -> txn (client w) = Active snap ->
  client_query q w = (Ok tt, w') ->
  exists T' seq',
    run_insert q (tables (client w)) (items_seq (client w)) = (inr T', seq') /\
    w' = mkWorld (mkStore T' seq' (Active snap)) (sent w ++ [q])
                 (processedRows w) (console w).
Proof.
  intros Hq Ht Hr. rewrite (client_query_insert q w snap Hq Ht) in Hr.
  destruct (run_insert q (tables (client w)) (items_seq (client w)))
    as [[e|T'] seq']; inversion Hr; subst. eauto.
Qed.

Lemma new_items_resolve_trans T Ta T' :
  new_items_resolve T Ta -> new_items_resolve Ta T' ->
  covers Ta T' -> items_kept Ta T' -> new_items_resolve T T'.
Proof.
  intros H1 H2 Hc Hk id it Hnone Hsome.
  destruct (invoice_items Ta !! id) as [ita|] eqn:Ea.
  - pose proof (Hk _ _ Ea) as Hk'. rewrite Hk' in Hsome. inversion Hsome; subst.
    eapply item_resolves_covers; eauto.
  - eapply H2; eauto.
Qed.

(** What a run of INSERTs that all succeed does inside a block. *)
Lemma block_ok qs : forall w snap w',
  Forall (fun q => is_insert q = true) qs ->
  txn (client w) = Active snap ->
  for_of qs client_query w = (Ok tt, w') ->
  sent w' = sent w ++ qs /\
  covers (tables (client w)) (tables (client w')) /\
  items_kept (tables (client w)) (tables (client w')) /\
  size (invoice_items (tables (client w'))) =
    size (invoice_items (tables (client w))) + sum_list (map items_added qs) /\
  (ids_below (client w) -> ids_below (client w')) /\
  (Forall (fun q => item_refs_set q = true) qs ->
   new_items_resolve (tables (client w)) (tables (client w'))).
Proof.
  induction qs as [|q qs IH]; intros w snap w' Hins Ht Hrun; simpl in Hrun.
  - inversion Hrun; subst. rewrite app_nil_r. simpl. rewrite Nat.add_0_r.
    repeat split; auto using covers_refl.
    + intros id it Hit. exact Hit.
    + intros _ id it Hn Hs. congruence.
  - apply Forall_cons in Hins as [Hq Hqs]. rewrite bind_eq in Hrun.
    destruct (client_query q w) as [[[]|e] wa] eqn:Hqa; [|discriminate].
    destruct (client_query_ok q w snap wa Hq Ht Hqa) as (Ta & sa & Hri & ->).
    destruct (run_insert_mono _ _ _ _ _ Hri) as (Hc1 & Hk1 & Hs1 & Hn1).
    apply (IH _ snap w' Hqs) in Hrun as IH'; [|reflexivity]. clear IH.
    rename IH' into IH. simpl in IH.
    destruct IH as (Hsent & Hc2 & Hk2 & Hn2 & Hid2 & Hres2).
    split; [rewrite Hsent, <- app_assoc; reflexivity|].
    split; [eapply covers_trans; eauto|].
    split; [intros id it Hit; auto|].
    split; [rewrite Hn2, Hn1; simpl; lia|].
    split.
    + intros Hids. apply Hid2. intros id it Hit. simpl in *.
      destruct (invoice_items (tables (client w)) !! id) as [it0|] eqn:E0.
      * apply Hids in E0. lia.
      * destruct q; simpl in Hri;
          try (inversion Hri; subst; congruence);
          try (unfold insert_customer, insert_product, insert_invoice in Hri;
               repeat match type of Hri with
                      | context [match ?x with _ => _ end] => destruct x eqn:?
                      | context [if ?x then _ else _] => destruct x eqn:?
                      end; try discriminate Hri; inversion Hri; subst;
               simpl in Hit; congruence).
        unfold insert_item in Hri.
        repeat match type of Hri with
               | context [match ?x with _ => _ end] => destruct x eqn:?
               | context [if ?x then _ else _] => destruct x eqn:?
               end; try discriminate Hri; inversion Hri; subst.
        simpl in Hit.
        destruct (decide ((items_seq (client w) + 1)%Z = id)) as [Heq|Hne]; [lia|].
        rewrite lookup_insert_ne in Hit by assumption. congruence.
    + intros Hg. apply Forall_cons in Hg as [Hg1 Hg2].
      eapply new_items_resolve_trans; eauto.
      eapply run_insert_resolves; eauto.
Qed.

(** The two ways [processBatch] can go on an idle session. *)
Lemma after_cases batch w :
  txn (client w) = Idle ->
  (exists w1, loop_of batch w = (Ok tt, w1) /\
     after batch w =
     mkWorld (mkStore (tables (client w1)) (items_seq (client w1)) Idle)
             (sent w1 ++ [COMMIT]) (processedRows w + length batch)
             (console w ++ [LogProcessed (processedRows w + length batch)])) \/
  (exists e w1, loop_of batch w = (Throw e, w1) /\
     after batch w =
     mkWorld (mkStore (tables (client w)) (items_seq (client w1)) Idle)
             (sent w1 ++ [ROLLBACK]) (processedRows w)
             (console w ++ [ErrProcessingBatch e])).
Proof.
  intros Hidle. unfold after.
  destruct (loop_of batch w) as [[[]|e] w1] eqn:Hloop.
  - left. exists w1. rewrite (processBatch_commit batch w w1); auto.
  - right. exists e, w1. rewrite (processBatch_rollback batch w e w1); auto.
Qed.



(** A group that commits: what its loop did is what is in the store. *)
Lemma after_committed batch w :
  txn (client w) = Idle -> committed (after batch w) = true ->
  exists w1,
    loop_of batch w = (Ok tt, w1) /\
    for_of (batch_queries batch) client_query (begun w) = (Ok tt, w1) /\
    tables (client (after batch w)) = tables (client w1) /\
    items_seq (client (after batch w)) = items_seq (client w1) /\
    processedRows (after batch w) = processedRows w + length batch /\
    console (after batch w) =
      console w ++ [LogProcessed (processedRows w + length batch)].
Proof.
  intros Hidle Hc.
  destruct (after_cases batch w Hidle) as [(w1 & Hl & Ha) | (e & w1 & Hl & Ha)];
    rewrite Ha in *.
  - exists w1. split; [assumption|]. split; [|simpl; auto].
    unfold loop_of in Hl. rewrite batch_loop_queries in Hl. exact Hl.
  - rewrite committed_snoc_rollback in Hc. discriminate.
Qed.

(** A group that does not commit leaves tables and counter as they were. *)
Lemma after_not_committed batch w :
  txn (client w) = Idle -> committed (after batch w) = false ->
  tables (client (after batch w)) = tables (client w) /\
  processedRows (after batch w) = processedRows w /\
  exists e, console (after batch w) = console w ++ [ErrProcessingBatch e].
Proof.
  intros Hidle Hc.
  destruct (after_cases batch w Hidle) as [(w1 & Hl & Ha) | (e & w1 & Hl & Ha)];
    rewrite Ha in *.
  - rewrite committed_snoc_commit in Hc. discriminate.
  - simpl. eauto.
Qed.

End BlockFacts.

(** ** Order of the writes, and what they leave in [invoice_items] *)

Section OrderClaims.
Context `{PgInput}.

Lemma client_query_sent q w : sent (client_query q w).2 = sent w ++ [q].
Proof.
  unfold client_query. destruct (pg_execute q (client w)) as [[e|] st]; reflexivity.
Qed.

(** What a loop over statements has sent is a prefix of its list. *)
Lemma for_of_sent_prefix qs : forall w,
  exists done, sent (for_of qs client_query w).2 = sent w ++ done /\
               done `prefix_of` qs.
Proof.
  induction qs as [|q qs IH]; intros w; simpl.
  - exists []. rewrite app_nil_r. split; [reflexivity | apply prefix_nil].
  - rewrite bind_eq. pose proof (client_query_sent q w) as Hs.
    destruct (client_query q w) as [[[]|e] wa]; simpl in Hs.
    + destruct (IH wa) as (done & Hd & Hp). exists (q :: done). split.
      * rewrite Hd, Hs, <- app_assoc. reflexivity.
      * apply prefix_cons, Hp.
    + exists [q]. split; [exact Hs|]. apply prefix_cons, prefix_nil.
Qed.

Lemma row_queries_order row i j qi qj ti tj :
  row_queries row !! i = Some qi -> row_queries row !! j = Some qj ->
  target qi = Some ti -> target qj = Some tj ->
  references tj ti = true -> i < j.
Proof.
  unfold row_queries.
  destruct (truthy (CustomerID row)), (truthy (StockCode row)),
    (truthy (Description row)), (truthy (InvoiceNo row)); simpl;
    intros Hi Hj Hti Htj Href;
    destruct i as [|[|[|[|i]]]]; simpl in Hi; try discriminate Hi;
    inversion Hi; subst; simpl in Hti; inversion Hti; subst;
    destruct j as [|[|[|[|j]]]]; simpl in Hj; try discriminate Hj;
    inversion Hj; subst; simpl in Htj; inversion Htj; subst;
    simpl in Href; try discriminate Href; lia.
Qed.

Lemma row_queries_refs_set row :
  Forall (fun q => item_refs_set q = true) (row_queries row).
Proof.
  unfold row_queries.
  repeat (apply Forall_app; split);
    match goal with |- Forall _ (if ?c then _ else _) => destruct c eqn:E end;
    repeat constructor.
  exact E.
Qed.

Lemma batch_queries_refs_set batch :
  Forall (fun q => item_refs_set q = true) (batch_queries batch).
Proof.
  unfold batch_queries. induction batch as [|r l IH]; simpl.
  - constructor.
  - apply Forall_app. split; [apply row_queries_refs_set | exact IH].
Qed.

(** C5: the statements sent for one record come in dependency order: a
    statement on a table is sent after every statement on a table it
    references (customers before invoices; invoices and products before
    invoice_items).  And whatever a group leaves in [invoice_items] has an
    invoice and a product that exist: each row added by the group has both
    references set, to rows that are in the store after the group. *)
Theorem inserts_in_dependency_order batch w :
  txn (client w) = Idle ->
  (forall row w0,
     exists qs, sent (processRow row w0).2 = sent w0 ++ qs /\
       forall i j qi qj ti tj,
         qs !! i = Some qi -> qs !! j = Some qj ->
         target qi = Some ti -> target qj = Some tj ->
         references tj ti = true -> i < j) /\
  new_items_resolve (tables (client w)) (tables (client (after batch w))).
Proof.
  intros Hidle. split.
  - intros row w0. rewrite processRow_queries.
    destruct (for_of_sent_prefix (row_queries row) w0) as (done & Hd & Hp).
    exists done. split; [exact Hd|].
    intros i j qi qj ti tj Hi Hj. apply (row_queries_order row i j qi qj ti tj).
    + eapply prefix_lookup_Some; eauto.
    + eapply prefix_lookup_Some; eauto.
  - destruct (after_cases batch w Hidle) as [(w1 & Hl & ->) | (e & w1 & Hl & ->)];
      simpl.
    + unfold loop_of in Hl. rewrite batch_loop_queries in Hl.
      eapply block_ok in Hl; [|apply batch_queries_insert|reflexivity].
      destruct Hl as (_ & _ & _ & _ & _ & Hres). simpl in Hres.
      apply Hres, batch_queries_refs_set.
    + intros id it Hn Hs. congruence.
Qed.

End OrderClaims.

(** ** The counter of processed rows *)

Section CounterClaims.
Context `{PgInput}.




End CounterClaims.

(** ** What one record writes *)

Lemma str_startsWith_C no :
  str_startsWith no "C" = true <-> exists rest, no = String "C"%char rest.
Proof.
  destruct no as [|c rest]; cbn [str_startsWith].
  - split; [discriminate | intros [r Hr]; discriminate].
  - destruct (Ascii.eqb "C"%char c) eqn:E.
    + apply Ascii.eqb_eq in E. subst c. split; [eauto|].
      intros _. destruct rest; reflexivity.
    + apply Ascii.eqb_neq in E.
      split; [discriminate | intros [r Hr]; inversion Hr; congruence].
Qed.

Section RowClaims.
Context `{PgInput}.
Local Arguments str_startsWith : simpl never.

Lemma for_of_app_ok {A} (l1 l2 : list A) (body : A -> M unit) w w' :
  for_of (l1 ++ l2) body w = (Ok tt, w') ->
  exists w1, for_of l1 body w = (Ok tt, w1) /\ for_of l2 body w1 = (Ok tt, w').
Proof.
  rewrite for_of_app. destruct (for_of l1 body w) as [[[]|e] w1]; [eauto|discriminate].
Qed.

Lemma client_query_ok_any q w w' :
  is_insert q = true -> client_query q w = (Ok tt, w') ->
  exists T' seq',
    run_insert q (tables (client w)) (items_seq (client w)) = (inr T', seq') /\
    tables (client w') = T' /\ sent w' = sent w ++ [q].
Proof.
  intros Hq. unfold client_query, pg_execute.
  destruct q; try discriminate Hq;
    (destruct (txn (client w));
     [ | | intros Hr; discriminate Hr ];
     match goal with
     | |- context [run_insert ?q ?T ?s] =>
         destruct (run_insert q T s) as [[e|T'] seq']
     end; intros Hr; inversion Hr; subst; simpl; eauto).
Qed.

Lemma guarded_query_ok (c : bool) q w w' :
  is_insert q = true ->
  for_of (if c then [q] else []) client_query w = (Ok tt, w') ->
  if c
  then exists T' seq',
         run_insert q (tables (client w)) (items_seq (client w)) = (inr T', seq') /\
         tables (client w') = T' /\ sent w' = sent w ++ [q]
  else w' = w.
Proof.
  intros Hq. destruct c; simpl.
  - rewrite bind_eq. destruct (client_query q w) as [[[]|e] w1] eqn:E; [|discriminate].
    intros Hr; inversion Hr; subst. eapply client_query_ok_any; eauto.
  - intros Hr; inversion Hr; reflexivity.
Qed.

Lemma insert_customer_ok a b T T' :
  insert_customer a b T = inr T' ->
  exists k co,
    nullable (varchar 20) a = Some (Some k) /\
    nullable (varchar 50) b = Some co /\
    customers T' = upsert k (mkCustomer co) (customers T) /\
    products T' = products T /\ invoices T' = invoices T /\
    invoice_items T' = invoice_items T.
Proof.
  unfold insert_customer, upsert. intros Hr.
  repeat match type of Hr with
         | context [match ?x with _ => _ end] => destruct x eqn:?
         end; try discriminate Hr; inversion Hr; subst;
    do 2 eexists; (split; [reflexivity|]); (split; [reflexivity|]);
    reuse_eqs; auto.
Qed.

Lemma insert_product_ok a b T T' :
  insert_product a b T = inr T' ->
  exists k,
    nullable (varchar 20) a = Some (Some k) /\
    products T' = upsert k (mkProduct b (Some 0%Z)) (products T) /\
    customers T' = customers T /\ invoices T' = invoices T /\
    invoice_items T' = invoice_items T.
Proof.
  unfold insert_product, upsert. intros Hr.
  repeat match type of Hr with
         | context [match ?x with _ => _ end] => destruct x eqn:?
         end; try discriminate Hr; inversion Hr; subst;
    eexists; (split; [reflexivity|]); reuse_eqs; auto.
Qed.

Lemma insert_invoice_ok a b c d e T T' :
  insert_invoice a b c d e T = inr T' ->
  exists k cust date co,
    nullable (varchar 20) a = Some (Some k) /\
    nullable (varchar 20) b = Some cust /\
    nullable pg_timestamp c = Some date /\
    nullable (varchar 50) d = Some co /\
    invoices T' = upsert k (mkInvoice cust date co (Some e)) (invoices T) /\
    (invoices T !! k = None -> fk_ok cust (customers T) = true) /\
    customers T' = customers T /\ products T' = products T /\
    invoice_items T' = invoice_items T.
Proof.
  unfold insert_invoice, upsert. intros Hr.
  repeat match type of Hr with
         | context [match ?x with _ => _ end] => destruct x eqn:?
         | context [if ?x then _ else _] => destruct x eqn:?
         end; try discriminate Hr; inversion Hr; subst;
    do 4 eexists; do 4 (split; [reflexivity|]); reuse_eqs; simpl;
    repeat split; auto; congruence.
Qed.

Lemma insert_item_ok a b c d T seq T' seq' :
  insert_item a b c d T seq = (inr T', seq') ->
  exists inv sc qty price,
    nullable (varchar 20) a = Some inv /\
    nullable (varchar 20) b = Some sc /\
    nullable pg_integer c = Some qty /\
    nullable pg_numeric d = Some price /\
    invoice_items T !! (seq + 1)%Z = None /\
    invoice_items T' = <[(seq + 1)%Z := mkItem inv sc qty price]> (invoice_items T) /\
    customers T' = customers T /\ products T' = products T /\
    invoices T' = invoices T.
Proof.
  unfold insert_item. intros Hr.
  repeat match type of Hr with
         | context [match ?x with _ => _ end] => destruct x eqn:?
         | context [if ?x then _ else _] => destruct x eqn:?
         end; try discriminate Hr; inversion Hr; subst.
  do 4 eexists. repeat split; auto.
Qed.

Lemma stage_customer (c : bool) a b w w' :
  for_of (if c then [InsertCustomer a b] else []) client_query w = (Ok tt, w') ->
  sent w' = sent w ++ (if c then [InsertCustomer a b] else []) /\
  (if c
   then exists k co,
          nullable (varchar 20) a = Some (Some k) /\
          nullable (varchar 50) b = Some co /\
          customers (tables (client w'))
            = upsert k (mkCustomer co) (customers (tables (client w)))
   else customers (tables (client w')) = customers (tables (client w))) /\
  products (tables (client w')) = products (tables (client w)) /\
  invoices (tables (client w')) = invoices (tables (client w)) /\
  invoice_items (tables (client w')) = invoice_items (tables (client w)).
Proof.
  intros Hr. apply guarded_query_ok in Hr; [|reflexivity]. destruct c.
  - destruct Hr as (T' & seq' & Hri & <- & Hs). simpl in Hri.
    inversion Hri as [[Hi Hseq]].
    destruct (insert_customer_ok _ _ _ _ Hi) as (k & co & ? & ? & ? & ? & ? & ?).
    repeat split; eauto.
  - subst. rewrite app_nil_r. auto.
Qed.

Lemma stage_product (c : bool) a b w w' :
  for_of (if c then [InsertProduct a b] else []) client_query w = (Ok tt, w') ->
  sent w' = sent w ++ (if c then [InsertProduct a b] else []) /\
  (if c
   then exists k,
          nullable (varchar 20) a = Some (Some k) /\
          products (tables (client w'))
            = upsert k (mkProduct b (Some 0%Z)) (products (tables (client w)))
   else products (tables (client w')) = products (tables (client w))) /\
  customers (tables (client w')) = customers (tables (client w)) /\
  invoices (tables (client w')) = invoices (tables (client w)) /\
  invoice_items (tables (client w')) = invoice_items (tables (client w)).
Proof.
  intros Hr. apply guarded_query_ok in Hr; [|reflexivity]. destruct c.
  - destruct Hr as (T' & seq' & Hri & <- & Hs). simpl in Hri.
    inversion Hri as [[Hi Hseq]].
    destruct (insert_product_ok _ _ _ _ Hi) as (k & ? & ? & ? & ? & ?).
    repeat split; eauto.
  - subst. rewrite app_nil_r. auto.
Qed.

Lemma stage_invoice (c : bool) a b d e f w w' :
  for_of (if c then [InsertInvoice a b d e f] else []) client_query w = (Ok tt, w') ->
  sent w' = sent w ++ (if c then [InsertInvoice a b d e f] else []) /\
  (if c
   then exists k cust date co,
          nullable (varchar 20) a = Some (Some k) /\
          nullable (varchar 20) b = Some cust /\
          nullable pg_timestamp d = Some date /\
          nullable (varchar 50) e = Some co /\
          invoices (tables (client w'))
            = upsert k (mkInvoice cust date co (Some f))
                     (invoices (tables (client w)))
   else invoices (tables (client w')) = invoices (tables (client w))) /\
  customers (tables (client w')) = customers (tables (client w)) /\
  products (tables (client w')) = products (tables (client w)) /\
  invoice_items (tables (client w')) = invoice_items (tables (client w)).
Proof.
  intros Hr. apply guarded_query_ok in Hr; [|reflexivity]. destruct c.
  - destruct Hr as (T' & seq' & Hri & <- & Hs). simpl in Hri.
    inversion Hri as [[Hi Hseq]].
    destruct (insert_invoice_ok _ _ _ _ _ _ _ Hi)
      as (k & cust & date & co & ? & ? & ? & ? & ? & ? & ? & ? & ?).
    split; [assumption|]. split; [|auto].
    exists k, cust, date, co. auto.
  - subst. rewrite app_nil_r. auto.
Qed.

Lemma stage_item (c : bool) a b d e w w' :
  for_of (if c then [InsertItem a b d e] else []) client_query w = (Ok tt, w') ->
  sent w' = sent w ++ (if c then [InsertItem a b d e] else []) /\
  (if c
   then exists id inv sc qty price,
          nullable (varchar 20) a = Some inv /\
          nullable (varchar 20) b = Some sc /\
          nullable pg_integer d = Some qty /\
          nullable pg_numeric e = Some price /\
          invoice_items (tables (client w)) !! id = None /\
          invoice_items (tables (client w'))
            = <[id := mkItem inv sc qty price]> (invoice_items (tables (client w)))
   else invoice_items (tables (client w')) = invoice_items (tables (client w))) /\
  customers (tables (client w')) = customers (tables (client w)) /\
  products (tables (client w')) = products (tables (client w)) /\
  invoices (tables (client w')) = invoices (tables (client w)).
Proof.
  intros Hr. apply guarded_query_ok in Hr; [|reflexivity]. destruct c.
  - destruct Hr as (T' & seq' & Hri & <- & Hs). simpl in Hri.
    destruct (insert_item_ok _ _ _ _ _ _ _ _ Hri)
      as (inv & sc & qty & price & ? & ? & ? & ? & ? & ? & ? & ? & ?).
    split; [assumption|]. split; [|auto].
    exists (items_seq (client w) + 1)%Z, inv, sc, qty, price.
    repeat split; assumption.
  - subst. rewrite app_nil_r. auto.
Qed.

Lemma upsert_keeps {V} k (v : V) m k' v' :
  m !! k' = Some v' -> upsert k v m !! k' = Some v'.
Proof.
  intros Hm. unfold upsert. destruct (m !! k) eqn:E; [assumption|].
  rewrite lookup_insert_ne; [assumption|]. congruence.
Qed.

Lemma upsert_new {V} k (v : V) m : m !! k = None -> upsert k v m !! k = Some v.
Proof. intros Hm. unfold upsert. rewrite Hm. apply lookup_insert_eq. Qed.

(** What a pass through the loop body that runs to its end has done. *)
Lemma processRow_ok_effect row w w' :
  processRow row w = (Ok tt, w') ->
  let T := tables (client w) in
  let T' := tables (client w') in
  sent w' = sent w ++ row_queries row /\
  (if truthy (CustomerID row)
   then exists k co,
          nullable (varchar 20) (CustomerID row) = Some (Some k) /\
          nullable (varchar 50) (Country row) = Some co /\
          customers T' = upsert k (mkCustomer co) (customers T)
   else customers T' = customers T) /\
  (if truthy (StockCode row) && truthy (Description row)
   then exists k,
          nullable (varchar 20) (StockCode row) = Some (Some k) /\
          products T' = upsert k (mkProduct (Description row) (Some 0%Z)) (products T)
   else products T' = products T) /\
  (if truthy (InvoiceNo row)
   then exists k cust date co,
          nullable (varchar 20) (InvoiceNo row) = Some (Some k) /\
          nullable (varchar 20) (CustomerID row) = Some cust /\
          nullable pg_timestamp (InvoiceDate row) = Some date /\
          nullable (varchar 50) (Country row) = Some co /\
          invoices T' = upsert k (mkInvoice cust date co
                                    (Some (is_cancelled_of row))) (invoices T)
   else invoices T' = invoices T) /\
  (if truthy (InvoiceNo row) && truthy (StockCode row)
   then exists id inv sc qty price,
          nullable (varchar 20) (InvoiceNo row) = Some inv /\
          nullable (varchar 20) (StockCode row) = Some sc /\
          nullable pg_integer (Quantity row) = Some qty /\
          nullable pg_numeric (UnitPrice row) = Some price /\
          invoice_items T !! id = None /\
          invoice_items T' = <[id := mkItem inv sc qty price]> (invoice_items T)
   else invoice_items T' = invoice_items T).
Proof.
  intros Hr. cbv zeta. rewrite processRow_queries in Hr. unfold row_queries in *.
  apply for_of_app_ok in Hr as (w1 & H1 & Hr).
  apply for_of_app_ok in Hr as (w2 & H2 & Hr).
  apply for_of_app_ok in Hr as (w3 & H3 & H4).
  apply stage_customer in H1 as (S1 & E1 & P1 & I1 & L1).
  apply stage_product in H2 as (S2 & E2 & C2 & I2 & L2).
  apply stage_invoice in H3 as (S3 & E3 & C3 & P3 & L3).
  apply stage_item in H4 as (S4 & E4 & C4 & P4 & I4).
  split; [rewrite S4, S3, S2, S1, <- !app_assoc; reflexivity|].
  split; [rewrite C4, C3, C2; exact E1|].
  rewrite P1 in E2. rewrite I2, I1 in E3. rewrite L3, L2, L1 in E4.
  split; [rewrite P4, P3; exact E2|].
  split; [rewrite I4; exact E3|].
  exact E4.
Qed.

Lemma upsert_cases {V} k (v : V) m :
  (is_Some (m !! k) /\ upsert k v m = m) \/
  (m !! k = None /\ upsert k v m = <[k := v]> m).
Proof. unfold upsert. destruct (m !! k) eqn:E; eauto. Qed.

(** C2: a pass through the loop body that runs to its end has sent exactly
    the statements of [row_queries], in that order: the customer upsert iff
    the customer id is non-empty, the product upsert iff stock code and
    description are non-empty, the invoice upsert iff the invoice number is
    non-empty, the item insert iff invoice number and stock code are
    non-empty.  Each upsert has put its row under the key unless the key was
    taken, in which case the table is as before; no row that was in
    [customers], [products] or [invoices] has changed.  The item insert has
    put its row under an id that was free: [invoice_items] has one row more,
    whatever rows it held. *)
Theorem processRow_writes row w w' :
  processRow row w = (Ok tt, w') ->
  let T := tables (client w) in
  let T' := tables (client w') in
  sent w' = sent w ++ row_queries row /\
  (if truthy (CustomerID row)
   then exists k co,
          nullable (varchar 20) (CustomerID row) = Some (Some k) /\
          nullable (varchar 50) (Country row) = Some co /\
          customers T' = upsert k (mkCustomer co) (customers T)
   else customers T' = customers T) /\
  (if truthy (StockCode row) && truthy (Description row)
   then exists k,
          nullable (varchar 20) (StockCode row) = Some (Some k) /\
          products T' = upsert k (mkProduct (Description row) (Some 0%Z)) (products T)
   else products T' = products T) /\
  (if truthy (InvoiceNo row)
   then exists k cust date co,
          nullable (varchar 20) (InvoiceNo row) = Some (Some k) /\
          nullable (varchar 20) (CustomerID row) = Some cust /\
          nullable pg_timestamp (InvoiceDate row) = Some date /\
          nullable (varchar 50) (Country row) = Some co /\
          invoices T' = upsert k (mkInvoice cust date co
                                    (Some (is_cancelled_of row))) (invoices T)
   else invoices T' = invoices T) /\
  (if truthy (InvoiceNo row) && truthy (StockCode row)
   then exists id inv sc qty price,
          nullable (varchar 20) (InvoiceNo row) = Some inv /\
          nullable (varchar 20) (StockCode row) = Some sc /\
          nullable pg_integer (Quantity row) = Some qty /\
          nullable pg_numeric (UnitPrice row) = Some price /\
          invoice_items T !! id = None /\
          invoice_items T' = <[id := mkItem inv sc qty price]> (invoice_items T)
   else invoice_items T' = invoice_items T) /\
  (forall k c, customers T !! k = Some c -> customers T' !! k = Some c) /\
  (forall k p, products T !! k = Some p -> products T' !! k = Some p) /\
  (forall k i, invoices T !! k = Some i -> invoices T' !! k = Some i) /\
  size (invoice_items T') =
    size (invoice_items T)
    + (if truthy (InvoiceNo row) && truthy (StockCode row) then 1 else 0).
Proof.
  intros Hr. pose proof (processRow_ok_effect row w w' Hr) as He.
  cbv zeta in *. destruct He as (Hs & Hc & Hp & Hi & Hl).
  split; [exact Hs|]. split; [exact Hc|]. split; [exact Hp|].
  split; [exact Hi|]. split; [exact Hl|].
  split; [|split; [|split]].
  - intros k c Hk. destruct (truthy (CustomerID row)).
    + destruct Hc as (k0 & co & _ & _ & ->). apply upsert_keeps, Hk.
    + rewrite Hc. exact Hk.
  - intros k c Hk. destruct (truthy (StockCode row) && truthy (Description row)).
    + destruct Hp as (k0 & _ & ->). apply upsert_keeps, Hk.
    + rewrite Hp. exact Hk.
  - intros k c Hk. destruct (truthy (InvoiceNo row)).
    + destruct Hi as (k0 & ? & ? & ? & _ & _ & _ & _ & ->). apply upsert_keeps, Hk.
    + rewrite Hi. exact Hk.
  - destruct (truthy (InvoiceNo row) && truthy (StockCode row)).
    + destruct Hl as (id & ? & ? & ? & ? & _ & _ & _ & _ & Hfree & ->).
      rewrite map_size_insert_None by assumption. lia.
    + rewrite Hl. lia.
Qed.

(** C3: when a pass through the loop body for a record with a non-empty
    invoice number runs to its end and the invoice was not in the table,
    the row now under its key has [is_cancelled] set, to true if the invoice
    number starts with the letter C and to false if it does not. *)
Theorem is_cancelled_iff_prefix_C row w w' no :
  InvoiceNo row = Some no -> no <> "" ->
  processRow row w = (Ok tt, w') ->
  exists k,
    varchar 20 no = Some k /\
    (invoices (tables (client w)) !! k = None ->
     exists inv,
       invoices (tables (client w')) !! k = Some inv /\
       (i_is_cancelled inv = Some true <-> exists rest, no = String "C"%char rest) /\
       (i_is_cancelled inv = Some false <-> ~ exists rest, no = String "C"%char rest)).
Proof.
  intros Hno Hne Hr.
  pose proof (processRow_ok_effect row w w' Hr) as He.
  cbv zeta in He. destruct He as (_ & _ & _ & Hi & _).
  unfold is_cancelled_of in Hi. rewrite Hno in Hi.
  destruct no as [|c s]; [congruence|]. simpl in Hi.
  destruct Hi as (k & cust & date & co & Hk & _ & _ & _ & Hinv).
  destruct (varchar 20 (String c s)) as [k'|] eqn:Ev; [|discriminate].
  simpl in Hk. inversion Hk; subst k'. exists k. split; [reflexivity|].
  intros Hnew. eexists. split; [rewrite Hinv; apply upsert_new, Hnew|].
  simpl. pose proof (str_startsWith_C (String c s)) as HC.
  destruct (str_startsWith (String c s) "C").
  - split; split.
    + intros _. apply HC. reflexivity.
    + reflexivity.
    + discriminate.
    + intros Hn. exfalso. apply Hn, HC. reflexivity.
  - split; split.
    + discriminate.
    + intros Hx. apply HC in Hx. discriminate.
    + intros _ Hx. apply HC in Hx. discriminate.
    + reflexivity.
Qed.

End RowClaims.

(** ** A second run over the same source *)

Section RerunFacts.
Context `{PgInput}.











End RerunFacts.

Section RerunClaims.
Context `{PgInput}.




End RerunClaims.

(** ** The run depends on the input conversions through their values only *)

Section InputExt.
Variables I I' : PgInput.
Hypothesis same_integer : forall s, @pg_integer I s = @pg_integer I' s.
Hypothesis same_numeric : forall s, @pg_numeric I s = @pg_numeric I' s.
Hypothesis same_timestamp : forall s, @pg_timestamp I s = @pg_timestamp I' s.

Lemma nullable_ext {B} (conv conv' : string -> option B) v :
  (forall s, conv s = conv' s) -> nullable conv v = nullable conv' v.
Proof. intros Hc. destruct v as [s|]; simpl; [rewrite Hc|]; reflexivity. Qed.

Lemma run_insert_ext q T seq : @run_insert I q T seq = @run_insert I' q T seq.
Proof.
  destruct q; simpl; try reflexivity.
  - unfold insert_invoice.
    rewrite (nullable_ext _ _ invoice_date same_timestamp). reflexivity.
  - unfold insert_item.
    rewrite (nullable_ext _ _ quantity same_integer),
      (nullable_ext _ _ unit_price same_numeric). reflexivity.
Qed.

Lemma client_query_ext q w : @client_query I q w = @client_query I' q w.
Proof.
  unfold client_query, pg_execute.
  destruct q; try reflexivity; rewrite run_insert_ext; reflexivity.
Qed.

Lemma for_of_ext {A} (l : list A) (body body' : A -> M unit) :
  (forall x w, body x w = body' x w) ->
  forall w, for_of l body w = for_of l body' w.
Proof.
  intros Hb. induction l as [|x l IH]; intros w; simpl; [reflexivity|].
  apply bind_ext; auto.
Qed.

Lemma processRow_ext row w : @processRow I row w = @processRow I' row w.
Proof.
  rewrite !processRow_queries. apply for_of_ext. apply client_query_ext.
Qed.

Lemma processBatch_ext batch w : @processBatch I batch w = @processBatch I' batch w.
Proof.
  unfold processBatch, try_catch.
  match goal with
  | |- match ?b w with _ => _ end = match ?b' w with _ => _ end =>
      assert (Hb : b w = b' w)
  end.
  { apply bind_ext; [apply client_query_ext|]. intros _ w1.
    apply bind_ext; [apply for_of_ext, processRow_ext|]. intros _ w2.
    apply bind_ext; [apply client_query_ext|]. reflexivity. }
  rewrite Hb.
  match goal with
  | |- match ?b' with _ => _ end = _ => destruct b' as [[[]|e] w1]
  end; [reflexivity|].
  apply bind_ext; [apply client_query_ext | reflexivity].
Qed.

Lemma load_all_ext gs : forall w, @load_all I gs w = @load_all I' gs w.
Proof.
  induction gs as [|g gs IH]; intros w; [reflexivity|].
  rewrite !load_all_cons, IH. f_equal. unfold after. rewrite processBatch_ext.
  reflexivity.
Qed.

Lemma populateDatabase_ext src w :
  world (@populateDatabase I src w) = world (@populateDatabase I' src w).
Proof.
  destruct (@populateDatabase_run I src w) as (_ & _ & _ & _ & ->).
  destruct (@populateDatabase_run I' src w) as (_ & _ & _ & _ & ->).
  rewrite load_all_ext. reflexivity.
Qed.

End InputExt.

(** ** The end-to-end example *)

Lemma override_same {B} (tbl : list (string * B)) f :
  Forall (fun kb => f kb.1 = Some kb.2) tbl -> forall s, f s = override tbl f s.
Proof.
  intros Hf s. unfold override.
  induction tbl as [|[k b] tbl IH]; simpl; [reflexivity|].
  apply Forall_cons in Hf as [Hk Hf]. simpl in Hk.
  destruct (String.eqb_spec k s) as [->|Hne]; [exact Hk | apply IH, Hf].
Qed.

(** C9, amended: with the third record's customer, country and date
    filled in like those of the first two, and whatever conversions the
    server applies as long as it accepts the quantities, the price and the
    timestamps of the example, the run over the three records on an empty
    store leaves exactly: one customer (17850, United Kingdom); one product
    (85123A); three invoices, 536365 and 536367 not cancelled and C536366
    cancelled; two line items, for the first two records. *)
Theorem end_to_end_example (I : PgInput) description unit_price q1 q2 p d1 d2 d3 :
  pg_integer "6" = Some q1 -> pg_integer "-1" = Some q2 ->
  pg_numeric "2.55" = Some p ->
  pg_timestamp "2010-12-01 08:26:00" = Some d1 ->
  pg_timestamp "2010-12-01 08:28:00" = Some d2 ->
  pg_timestamp "2010-12-01 08:34:00" = Some d3 ->
  customers (stored (first_run [ex_row1; ex_row2; ex_row3 description unit_price]))
    = {[ "17850" := mkCustomer (Some "United Kingdom") ]} /\
  products (stored (first_run [ex_row1; ex_row2; ex_row3 description unit_price]))
    = {[ "85123A" := mkProduct (Some "WHITE HANGING HEART T-LIGHT HOLDER")
                               (Some 0%Z) ]} /\
  invoices (stored (first_run [ex_row1; ex_row2; ex_row3 description unit_price]))
    = {[ "536365" := mkInvoice (Some "17850") (Some d1) (Some "United Kingdom")
                               (Some false);
         "C536366" := mkInvoice (Some "17850") (Some d2) (Some "United Kingdom")
                                (Some true);
         "536367" := mkInvoice (Some "17850") (Some d3) (Some "United Kingdom")
                               (Some false) ]} /\
  invoice_items (stored (first_run [ex_row1; ex_row2; ex_row3 description unit_price]))
    = {[ 1%Z := mkItem (Some "536365") (Some "85123A") (Some q1) (Some p);
         2%Z := mkItem (Some "C536366") (Some "85123A") (Some q2) (Some p) ]}.
Proof.
  intros Hq1 Hq2 Hp Hd1 Hd2 Hd3. unfold stored, first_run.
  rewrite (populateDatabase_ext I
             (with_values I [("6", q1); ("-1", q2)] [("2.55", p)]
                [("2010-12-01 08:26:00", d1); ("2010-12-01 08:28:00", d2);
                 ("2010-12-01 08:34:00", d3)])).
  - vm_compute. repeat split; reflexivity.
  - apply override_same. repeat constructor; assumption.
  - apply override_same. repeat constructor; assumption.
  - apply override_same. repeat constructor; assumption.
Qed.

(** ** The claims on concrete records *)

Lemma pair_eq_inv {A B} (a a' : A) (b b' : B) :
  (a, b) = (a', b') -> a = a' /\ b = b'.
Proof. intros Hp. inversion Hp. auto. Qed.

Section Examples.
Local Existing Instance decimal_input.

Lemma processBatch_all_or_nothing_witness :
  txn (client fresh_world) = Idle /\
  exists w',
    processBatch [ex_row1; ex_orphan] fresh_world = (Ok tt, w') /\
    txn (client w') = Idle.
Proof.
  split; [reflexivity|].
  destruct (processBatch_all_or_nothing [ex_row1; ex_orphan] fresh_world eq_refl)
    as (w' & H1 & H2 & _).
  exists w'. split; assumption.
Defined.

(** The group of the claim's example: a line item whose product no record
    describes takes the valid record before it down with it. *)
Example orphan_item_rolls_group_back :
  tables (client (after [ex_row1; ex_orphan] fresh_world)) = empty_tables /\
  console (after [ex_row1; ex_orphan] fresh_world)
    = [ErrProcessingBatch (DatabaseError ForeignKeyViolation)] /\
  processedRows (after [ex_row1; ex_orphan] fresh_world) = 0.
Proof. vm_compute. repeat split; reflexivity. Qed.

Lemma processRow_writes_witness :
  processRow ex_row1 fresh_world = (Ok tt, (processRow ex_row1 fresh_world).2) /\
  sent (processRow ex_row1 fresh_world).2 = sent fresh_world ++ row_queries ex_row1.
Proof.
  assert (Hr : processRow ex_row1 fresh_world
               = (Ok tt, (processRow ex_row1 fresh_world).2))
    by (vm_compute; reflexivity).
  split; [exact Hr|].
  exact (proj1 (processRow_writes ex_row1 fresh_world _ Hr)).
Defined.

Lemma is_cancelled_iff_prefix_C_witness :
  InvoiceNo ex_row2 = Some "C536366" /\ "C536366" <> "" /\
  processRow ex_row2 (processRow ex_row1 fresh_world).2
    = (Ok tt, (processRow ex_row2 (processRow ex_row1 fresh_world).2).2) /\
  exists k, varchar 20 "C536366" = Some k.
Proof.
  assert (Hr : processRow ex_row2 (processRow ex_row1 fresh_world).2
               = (Ok tt, (processRow ex_row2 (processRow ex_row1 fresh_world).2).2))
    by (vm_compute; reflexivity).
  assert (Hne : "C536366" <> "") by discriminate.
  split; [reflexivity|]. split; [exact Hne|]. split; [exact Hr|].
  destruct (is_cancelled_iff_prefix_C ex_row2 _ _ "C536366" eq_refl Hne Hr)
    as (k & Hk & _).
  exists k. exact Hk.
Defined.


Example rerun_after_rollback_sizes :
  size (products (stored (first_run ex_two_groups))) = 1 /\
  size (products (stored (second_run ex_two_groups))) = 2 /\
  size (invoices (stored (first_run ex_two_groups))) = 1 /\
  size (invoices (stored (second_run ex_two_groups))) = 3 /\
  size (invoice_items (stored (first_run ex_two_groups))) = 1 /\
  size (invoice_items (stored (second_run ex_two_groups))) = 1002.
Proof. vm_compute. repeat split; reflexivity. Qed.


Lemma inserts_in_dependency_order_witness :
  txn (client fresh_world) = Idle /\
  new_items_resolve (tables (client fresh_world))
    (tables (client (after [ex_row1; ex_row2] fresh_world))).
Proof.
  split; [reflexivity|].
  exact (proj2 (inserts_in_dependency_order [ex_row1; ex_row2] fresh_world eq_refl)).
Defined.


(** C9 as stated fails: the run over the three records leaves three
    rows in [invoices], not two. *)
Lemma example_leaves_three_invoices :
  size (invoices (stored (first_run [ex_row1; ex_row2; ex_row3 None None]))) = 3 /\
  size (invoices (stored (first_run [ex_row1; ex_row2; ex_row3 None None]))) <> 2.
Proof. vm_compute. split; [reflexivity | discriminate]. Qed.

Lemma end_to_end_example_witness :
  pg_integer "6" = Some 6%Z /\ pg_integer "-1" = Some (-1)%Z /\
  pg_numeric "2.55" = Some 255%Z /\
  pg_timestamp "2010-12-01 08:26:00" = Some 20101201082600%Z /\
  pg_timestamp "2010-12-01 08:28:00" = Some 20101201082800%Z /\
  pg_timestamp "2010-12-01 08:34:00" = Some 20101201083400%Z /\
  customers (stored (first_run [ex_row1; ex_row2; ex_row3 None None]))
    = {[ "17850" := mkCustomer (Some "United Kingdom") ]}.
Proof.
  repeat (split; [reflexivity|]).
  exact (proj1 (end_to_end_example decimal_input None None 6 (-1) 255
                  20101201082600 20101201082800 20101201083400
                  eq_refl eq_refl eq_refl eq_refl eq_refl eq_refl)).
Defined.

(** C8 fails on the code: a record whose CustomerID cell is empty sends
    the empty string, not NULL, as the invoice's customer; no customer has
    that key, the foreign key fails and the group is rolled back. *)
Theorem guest_invoice_rolls_back :
  sent (after [ex_guest] fresh_world)
    = [BEGIN;
       InsertProduct (Some "21773") (Some "DECORATIVE ROSE BATHROOM BOTTLE");
       InsertInvoice (Some "536544") (Some "") (Some "2010-12-01 14:32:00")
         (Some "United Kingdom") false;
       ROLLBACK] /\
  console (after [ex_guest] fresh_world)
    = [ErrProcessingBatch (DatabaseError ForeignKeyViolation)] /\
  committed (after [ex_guest] fresh_world) = false /\
  tables (client (after [ex_guest] fresh_world)) = empty_tables.
Proof. vm_compute. repeat split; reflexivity. Qed.

(** Were the customer sent as NULL, as it is when the line has no
    CustomerID cell at all, the same sale would commit. *)
Example guest_invoice_with_null_commits :
  committed (after [ex_guest_short] fresh_world) = true /\
  invoices (tables (client (after [ex_guest_short] fresh_world)))
    = {[ "536544" := mkInvoice None (Some 20101201143200%Z) None (Some false) ]}.
Proof. vm_compute. split; reflexivity. Qed.

(** C6 fails on the code: a source of 2000 records, when the stream knows
    at the last record that the file has ended.  The ['end'] listener runs
    while the call on the second group is in flight, finds the buffer still
    full, and calls [processBatch] on it again: the run ends closed with three
    calls for two groups, the records of the second group handed over twice.
    Both calls go through on the one session: [invoice_items] holds 3000
    rows for 2000 line items, and 3000 rows are reported as processed. *)
Theorem full_last_group_is_loaded_twice :
  let g := repeat ex_row1 1000 in
  let l := populate true (g ++ g) fresh_world in
  reachable (boot (g ++ g) fresh_world) l /\ (forall l', ~ turn l l') /\
  stage l = Closed /\ queue l = [] /\
  handed l = [g; g; g] /\ concat (handed l) <> g ++ g /\
  size (invoice_items (tables (client (now l)))) = 3000 /\
  processedRows (now l) = 3000 /\
  reports (console (now l)) = [1000; 2000; 3000].
Proof.
  cbv zeta.
  assert (Hrun :
    let g := repeat ex_row1 1000 in
    let l := populate true (g ++ g) fresh_world in
    (stage l, map call_query (queue l), handed l,
     size (invoice_items (tables (client (now l)))), processedRows (now l),
     reports (console (now l)))
    = (Closed, [], [g; g; g], 3000, 3000, [1000; 2000; 3000]))
    by (vm_compute; reflexivity).
  cbv zeta in Hrun.
  apply pair_eq_inv in Hrun as [Hrun H6].
  apply pair_eq_inv in Hrun as [Hrun H5].
  apply pair_eq_inv in Hrun as [Hrun H4].
  apply pair_eq_inv in Hrun as [Hrun H3].
  apply pair_eq_inv in Hrun as [H1 H2].
  split; [apply play_reachable, reach_start|].
  split; [intros l'; apply closed_is_final; exact H1|].
  split; [exact H1|].
  split; [apply map_eq_nil in H2; exact H2|].
  split; [exact H3|].
  split; [|split; [exact H4 | split; [exact H5 | exact H6]]].
  rewrite H3. intros Hc. apply (f_equal length) in Hc.
  vm_compute in Hc. discriminate Hc.
Qed.

(** C7 fails on the code: in the same run, once the ['end'] listener has
    run, two calls of [processBatch] are in flight, both on the second
    group, each with its BEGIN in the queue of the one client. *)
Theorem two_calls_in_flight :
  let g := repeat ex_row1 1000 in
  let l := play true 6003 (boot (g ++ g) fresh_world) in
  reachable (boot (g ++ g) fresh_world) l /\
  stage l = Ended /\ unread l = [] /\
  map call_batch (queue l) = [g; g] /\
  map call_query (queue l) = [BEGIN; BEGIN] /\
  map call_then (queue l) = [ThenResume; EndTail].
Proof.
  cbv zeta.
  assert (Hrun :
    let g := repeat ex_row1 1000 in
    let l := play true 6003 (boot (g ++ g) fresh_world) in
    (stage l, unread l, map call_batch (queue l), map call_query (queue l),
     map call_then (queue l))
    = (Ended, [], [g; g], [BEGIN; BEGIN], [ThenResume; EndTail]))
    by (vm_compute; reflexivity).
  cbv zeta in Hrun.
  apply pair_eq_inv in Hrun as [Hrun H5].
  apply pair_eq_inv in Hrun as [Hrun H4].
  apply pair_eq_inv in Hrun as [Hrun H3].
  apply pair_eq_inv in Hrun as [H1 H2].
  split; [apply play_reachable, reach_start|].
  split; [exact H1|]. split; [exact H2|]. split; [exact H3|].
  split; [exact H4 | exact H5].
Qed.

(** When a statement of one of two overlapping calls fails, the other call
    fails on its next statement, sent into the failed transaction; both
    errors are printed. *)
Example overlapping_calls_fail_together :
  let g := repeat ex_row1 1000 in
  let l := populate true (g ++ ex_orphan :: repeat ex_row1 999) fresh_world in
  stage l = Closed /\
  console (now l)
  = [LogConnected; LogProcessed 1000;
     ErrProcessingBatch (DatabaseError ForeignKeyViolation);
     ErrProcessingBatch (DatabaseError InFailedTransaction);
     LogCompleted].
Proof. vm_compute. split; reflexivity. Qed.

(** VARCHAR(20) takes twenty characters, whatever their bytes: nineteen
    letters and an e with acute accent (two bytes) fit, twenty-one letters do
    not, and spaces beyond the twentieth character are cut off. *)
Example varchar_counts_characters :
  let s := ("ABCDEFGHIJKLMNOPQRS"
            ++ String (Ascii.ascii_of_nat 195) (String (Ascii.ascii_of_nat 169) ""))%string in
  String.length s = 21 /\ varchar 20 s = Some s /\
  varchar 20 "ABCDEFGHIJKLMNOPQRSTU" = None /\
  varchar 20 (s ++ "  ")%string = Some s.
Proof. vm_compute. repeat split; reflexivity. Qed.

End Examples.

(** * Further properties of the loader *)

Section LoaderExtras.
Context `{PgInput}.









(** X2: the statements of a group form one transaction block.  On an
    idle session [processBatch] sends BEGIN, then statements of the group
    in order, then one closing statement: COMMIT after all of the group's
    statements, or ROLLBACK after a failed one; the session is idle again
    when it returns. *)
Theorem processBatch_sends_one_block g w :
  txn (client w) = Idle ->
  exists qs fin,
    sent (after g w) = sent w ++ BEGIN :: qs ++ [fin] /\
    qs `prefix_of` batch_queries g /\
    (fin = COMMIT /\ qs = batch_queries g \/ fin = ROLLBACK) /\
    (committed (after g w) = true <-> fin = COMMIT) /\
    txn (client (after g w)) = Idle.
Proof.
  intros Hidle.
  destruct (after_cases g w Hidle) as [(w1 & Hl & Ha) | (e & w1 & Hl & Ha)];
    rewrite Ha; unfold loop_of in Hl; rewrite batch_loop_queries in Hl.
  - pose proof Hl as Hb.
    apply (block_ok _ _ (tables (client w))) in Hb;
      [|apply batch_queries_insert|reflexivity].
    destruct Hb as (Hs & _). simpl in Hs.
    exists (batch_queries g), COMMIT. simpl. rewrite Hs, committed_snoc_commit.
    split; [rewrite <- !app_assoc; reflexivity|].
    split; [reflexivity|]. split; [auto|]. split; [tauto | reflexivity].
  - destruct (for_of_sent_prefix (batch_queries g) (begun w)) as (done & Hd & Hp).
    rewrite Hl in Hd. simpl in Hd.
    exists done, ROLLBACK. simpl. rewrite Hd, committed_snoc_rollback.
    split; [rewrite <- !app_assoc; reflexivity|].
    split; [exact Hp|]. split; [auto|].
    split; [split; discriminate | reflexivity].
Qed.

End LoaderExtras.

Section GroupExtras.
Context `{PgInput}.
#[local] Opaque batchSize.

Lemma batches_length src : forall buf,
  length buf < batchSize ->
  length (batches buf src) = (length buf + length src + batchSize - 1) / batchSize.
Proof.
  pose proof batchSize_pos as Hpos.
  induction src as [|row rest IH]; intros buf Hbuf; cbn [batches length].
  - destruct buf as [|r b]; cbn [length Nat.ltb Nat.leb].
    + symmetry. apply Nat.div_small. lia.
    + cbn [length] in Hbuf.
      replace (S (length b) + 0 + batchSize - 1) with (length b + 1 * batchSize) by lia.
      rewrite Nat.div_add by lia. rewrite Nat.div_small by lia. reflexivity.
  - destruct (Nat.leb_spec batchSize (length (buf ++ [row]))) as [Hle|Hlt];
      rewrite length_app in *; cbn [length] in *.
    + rewrite IH by exact Hpos. cbn [length].
      replace (length buf + S (length rest) + batchSize - 1)
        with (0 + length rest + batchSize - 1 + 1 * batchSize) by lia.
      rewrite Nat.div_add by lia. lia.
    + rewrite IH by (rewrite length_app; cbn; lia).
      rewrite length_app. cbn [length]. f_equal. lia.
Qed.

(** X3: a source of n records is handed to [processBatch] in
    ceil(n / 1000) groups: none for an empty source, and no extra, empty
    group when n is a multiple of 1000.  There is one call more, on the
    last group once again, when the last record fills a group and the stream
    knows at that record that the file has ended. *)
Theorem number_of_groups eof src w :
  length (handed (populate eof src w))
  = (length src + batchSize - 1) / batchSize
    + (if eof && ends_full src then 1 else 0).
Proof.
  destruct (eof && ends_full src) eqn:He.
  - apply andb_true_iff in He as [-> Hf].
    apply ends_full_true in Hf as [Hne Hm].
    unfold populate, boot.
    destruct (play_from_full src [] [] (log LogConnected w)
                (12 * length src + 8)) as (g & _ & ->).
    + apply batchSize_pos.
    + cbn [length]. lia.
    + exact Hne.
    + exact Hm.
    + cbn [app]. rewrite length_app, batches_length by apply batchSize_pos.
      cbn [length Nat.add]. reflexivity.
  - apply andb_false_iff in He.
    destruct (populate_run eof src w He) as (_ & _ & _ & -> & _).
    rewrite batches_length by apply batchSize_pos. cbn [length Nat.add]. lia.
Qed.

Lemma items_added_count batch :
  sum_list (map items_added (batch_queries batch))
  = length (List.filter has_item batch).
Proof.
  unfold batch_queries. induction batch as [|row l IH]; [reflexivity|].
  cbn [map concat List.filter]. rewrite map_app, sum_list_with_app, IH.
  unfold row_queries, has_item.
  destruct (truthy (CustomerID row)),
    (truthy (StockCode row) && truthy (Description row)),
    (truthy (InvoiceNo row)), (truthy (StockCode row)); reflexivity.
Qed.

Lemma run_insert_key q T seq T' seq' :
  run_insert q T seq = (inr T', seq') -> key_in q T'.
Proof.
  intros Hr. destruct q; simpl in Hr |- *; try exact I.
  - inversion Hr as [[Hi Hs]].
    destruct (insert_customer_ok _ _ _ _ Hi) as (k & co & Hk & _ & Hc & _).
    exists k. split; [exact Hk|]. rewrite Hc.
    destruct (upsert_cases k (mkCustomer co) (customers T)) as [[Hs' ->] | [Hn ->]];
      [exact Hs' | rewrite lookup_insert_eq; eauto].
  - inversion Hr as [[Hi Hs]].
    destruct (insert_product_ok _ _ _ _ Hi) as (k & Hk & Hc & _).
    exists k. split; [exact Hk|]. rewrite Hc.
    destruct (upsert_cases k (mkProduct description (Some 0%Z)) (products T))
      as [[Hs' ->] | [Hn ->]];
      [exact Hs' | rewrite lookup_insert_eq; eauto].
  - inversion Hr as [[Hi Hs]].
    destruct (insert_invoice_ok _ _ _ _ _ _ _ Hi)
      as (k & cust & date & co & Hk & _ & _ & _ & Hc & _).
    exists k. split; [exact Hk|]. rewrite Hc.
    destruct (upsert_cases k (mkInvoice cust date co (Some is_cancelled)) (invoices T))
      as [[Hs' ->] | [Hn ->]];
      [exact Hs' | rewrite lookup_insert_eq; eauto].
Qed.

Lemma key_in_covers q T T' : covers T T' -> key_in q T -> key_in q T'.
Proof.
  intros (Hc & Hp & Hi). destruct q; simpl; auto;
    intros (k & Hk & Hs); exists k; auto.
Qed.

Lemma block_keys qs : forall w snap w',
  Forall (fun q => is_insert q = true) qs ->
  txn (client w) = Active snap ->
  for_of qs client_query w = (Ok tt, w') ->
  Forall (fun q => key_in q (tables (client w'))) qs.
Proof.
  induction qs as [|q qs IH]; intros w snap w' Hins Ht Hrun; [constructor|].
  apply Forall_cons in Hins as [Hq Hqs]. simpl in Hrun. rewrite bind_eq in Hrun.
  destruct (client_query q w) as [[[]|e] wa] eqn:Hqa; [|discriminate].
  destruct (client_query_ok q w snap wa Hq Ht Hqa) as (Ta & sa & Hri & ->).
  pose proof Hrun as Hrest.
  apply (block_ok qs _ snap w' Hqs) in Hrest; [|reflexivity].
  destruct Hrest as (_ & Hcov & _). simpl in Hcov.
  constructor.
  - eapply key_in_covers; [exact Hcov | eapply run_insert_key; eauto].
  - apply (IH _ snap w' Hqs) in Hrun; [exact Hrun | reflexivity].
Qed.

Lemma row_queries_in_batch batch row q :
  row ∈ batch -> q ∈ row_queries row -> q ∈ batch_queries batch.
Proof.
  unfold batch_queries. induction batch as [|r l IH]; intros Hrow Hq.
  - inversion Hrow.
  - cbn [map concat]. apply elem_of_app. apply elem_of_cons in Hrow as [->|Hrow]; auto.
Qed.

(** X4: when a group commits, it is in the store: [invoice_items] has
    grown by exactly the number of the group's records that have both an
    invoice number and a stock code, and for every record of the group the
    customer, the product and the invoice it names (where the loop body
    writes one) is a row of its table. *)
Theorem committed_group_is_loaded g w :
  txn (client w) = Idle -> committed (after g w) = true ->
  size (invoice_items (tables (client (after g w))))
  = size (invoice_items (tables (client w))) + length (List.filter has_item g) /\
  forall row, row ∈ g ->
    (truthy (CustomerID row) = true ->
     exists k, nullable (varchar 20) (CustomerID row) = Some (Some k) /\
               is_Some (customers (tables (client (after g w))) !! k)) /\
    (truthy (StockCode row) && truthy (Description row) = true ->
     exists k, nullable (varchar 20) (StockCode row) = Some (Some k) /\
               is_Some (products (tables (client (after g w))) !! k)) /\
    (truthy (InvoiceNo row) = true ->
     exists k, nullable (varchar 20) (InvoiceNo row) = Some (Some k) /\
               is_Some (invoices (tables (client (after g w))) !! k)).
Proof.
  intros Hidle Hc.
  destruct (after_committed g w Hidle Hc) as (w1 & _ & Hl & Ht & _).
  rewrite Ht. pose proof Hl as Hb.
  apply (block_ok _ _ (tables (client w))) in Hb;
    [|apply batch_queries_insert|reflexivity].
  destruct Hb as (_ & _ & _ & Hn & _). simpl in Hn.
  split; [rewrite Hn, items_added_count; reflexivity|].
  apply (block_keys _ _ (tables (client w))) in Hl;
    [|apply batch_queries_insert|reflexivity].
  rewrite Forall_forall in Hl.
  intros row Hrow.
  assert (Hin : forall q, q ∈ row_queries row -> key_in q (tables (client w1))).
  { intros q Hq. apply Hl. eapply row_queries_in_batch; eauto. }
  unfold row_queries in Hin. repeat split.
  - intros Hg. rewrite Hg in Hin.
    apply (Hin (InsertCustomer (CustomerID row) (Country row))).
    apply elem_of_app. left. apply list_elem_of_singleton. reflexivity.
  - intros Hg. rewrite Hg in Hin.
    apply (Hin (InsertProduct (StockCode row) (Description row))).
    apply elem_of_app. right. apply elem_of_app. left.
    apply list_elem_of_singleton. reflexivity.
  - intros Hg. rewrite Hg in Hin.
    apply (Hin (InsertInvoice (InvoiceNo row) (CustomerID row) (InvoiceDate row)
                  (Country row) (is_cancelled_of row))).
    apply elem_of_app. right. apply elem_of_app. right. apply elem_of_app. left.
    apply list_elem_of_singleton. reflexivity.
Qed.

End GroupExtras.

Section FailureExtras.
Context `{PgInput}.







End FailureExtras.

Section FailureClaims.
Context `{PgInput}.




Lemma block_each_ok qs : forall w snap w',
  Forall (fun q => is_insert q = true) qs ->
  txn (client w) = Active snap ->
  for_of qs client_query w = (Ok tt, w') ->
  Forall (fun q => exists T s T' s', run_insert q T s = (inr T', s')) qs.
Proof.
  induction qs as [|q qs IH]; intros w snap w' Hins Ht Hrun; [constructor|].
  apply Forall_cons in Hins as [Hq Hqs]. simpl in Hrun. rewrite bind_eq in Hrun.
  destruct (client_query q w) as [[[]|e] wa] eqn:Hqa; [|discriminate].
  destruct (client_query_ok q w snap wa Hq Ht Hqa) as (Ta & sa & Hri & ->).
  constructor; [eauto|].
  apply (IH _ snap w' Hqs) in Hrun; [exact Hrun | reflexivity].
Qed.

(** X6: one malformed record fails its whole group.  If a record of the
    group has an invoice number too long for its column, a date that is no
    timestamp, or, with a line item, a quantity or a price that does not
    convert, the group does not commit, whatever the store holds: tables
    and counter are as before. *)
Theorem malformed_record_fails_group g w row :
  txn (client w) = Idle -> row ∈ g -> malformed row ->
  committed (after g w) = false /\
  tables (client (after g w)) = tables (client w) /\
  processedRows (after g w) = processedRows w.
Proof.
  intros Hidle Hrow Hbad.
  destruct (committed (after g w)) eqn:Hc.
  - exfalso.
    destruct (after_committed g w Hidle Hc) as (w1 & _ & Hl & _).
    apply (block_each_ok _ _ (tables (client w))) in Hl;
      [|apply batch_queries_insert|reflexivity].
    rewrite Forall_forall in Hl.
    assert (Hin : forall q, q ∈ row_queries row ->
                    exists T s T' s', run_insert q T s = (inr T', s')).
    { intros q Hq. apply Hl. eapply row_queries_in_batch; eauto. }
    unfold row_queries in Hin.
    destruct Hbad as [[Hg Hbad] | [Hg Hbad]].
    + rewrite Hg in Hin.
      destruct (Hin (InsertInvoice (InvoiceNo row) (CustomerID row)
                       (InvoiceDate row) (Country row) (is_cancelled_of row)))
        as (T & s & T' & s' & Hr).
      { apply elem_of_app. right. apply elem_of_app. right. apply elem_of_app. left.
        apply list_elem_of_singleton. reflexivity. }
      simpl in Hr. inversion Hr as [[Hi Hs]].
      destruct (insert_invoice_ok _ _ _ _ _ _ _ Hi)
        as (k & cust & date & co & Hk & _ & Hd & _).
      destruct Hbad as [Hb|Hb]; congruence.
    + unfold has_item in Hg. rewrite Hg in Hin.
      destruct (Hin (InsertItem (InvoiceNo row) (StockCode row) (Quantity row)
                       (UnitPrice row)))
        as (T & s & T' & s' & Hr).
      { apply elem_of_app. right. apply elem_of_app. right. apply elem_of_app. right.
        apply list_elem_of_singleton. reflexivity. }
      simpl in Hr.
      destruct (insert_item_ok _ _ _ _ _ _ _ _ Hr)
        as (inv & sc & qty & price & _ & _ & Hq & Hp & _).
      destruct Hbad as [Hb|Hb]; congruence.
  - split; [reflexivity|].
    destruct (after_not_committed g w Hidle Hc) as (Ht & Hp & _). auto.
Qed.

Lemma blank_queries row : blank row = true -> row_queries row = [].
Proof.
  unfold blank, row_queries. intros Hb.
  apply andb_true_iff in Hb as [Hb H3]. apply andb_true_iff in Hb as [H1 H2].
  apply negb_true_iff in H1, H2, H3. rewrite H1, H2, H3. reflexivity.
Qed.

(** X7: records that write nothing are counted all the same.  A group
    made of records with no customer id, no invoice number and no described
    product sends BEGIN and COMMIT and nothing in between, leaves the tables
    as they are, and adds its full size to the counter of processed rows. *)
Theorem blank_records_are_counted g w :
  txn (client w) = Idle -> Forall (fun row => blank row = true) g ->
  sent (after g w) = sent w ++ [BEGIN; COMMIT] /\
  tables (client (after g w)) = tables (client w) /\
  processedRows (after g w) = processedRows w + length g /\
  console (after g w) = console w ++ [LogProcessed (processedRows w + length g)].
Proof.
  intros Hidle Hb.
  assert (Hq : batch_queries g = []).
  { unfold batch_queries. induction g as [|row l IH]; [reflexivity|].
    apply Forall_cons in Hb as [Hr Hl]. cbn [map concat].
    rewrite (blank_queries row Hr), IH by exact Hl. reflexivity. }
  assert (Hl : loop_of g w = (Ok tt, begun w)).
  { unfold loop_of. rewrite batch_loop_queries, Hq. reflexivity. }
  unfold after. rewrite (processBatch_commit g w (begun w) Hidle Hl). simpl.
  rewrite <- app_assoc. auto.
Qed.

End FailureClaims.

(** * Properties of the HTTP API *)

Section ApiFacts.
Context `{PgInput} `{JsData}.
Variable development : bool.

Lemma product_referenced_spec k T :
  product_referenced k T = true <->
  exists id it, invoice_items T !! id = Some it /\ it_stock_code it = Some k.
Proof.
  unfold product_referenced. rewrite negb_true_iff, bool_decide_eq_false.
  rewrite map_not_Forall by (intros; apply _). unfold map_Exists. split.
  - intros (id & it & Hit & Hne). exists id, it. split; [exact Hit|].
    destruct (decide (it_stock_code it = Some k)); [assumption | contradiction].
  - intros (id & it & Hit & Heq). exists id, it. split; [exact Hit|]. auto.
Qed.

Lemma js_truthy_text v :
  js_truthy v = true -> exists s, prepareValue v = Some s.
Proof. destruct v as [| |[|]| | |]; simpl; try discriminate; eauto. Qed.

(** X8: a product that was created can be read back.  When POST
    /api/products answers 201, the key it reports was free, the row it
    reports has the description sent and a popularity score of 0, GET
    /api/products/:stock_code on that key answers 200 with the same row,
    and nothing else in the store has changed. *)
Theorem post_then_get_product sc de T resp T' :
  post_api_products development sc de T = (resp, T') ->
  status resp = 201 ->
  exists k,
    nullable (varchar 20) (prepareValue sc) = Some (Some k) /\
    products T !! k = None /\
    body resp = ProductBody k (mkProduct (prepareValue de) (Some 0%Z)) /\
    get_api_product k T' = mkResponse 200 (body resp) /\
    (forall k', k' <> k -> products T' !! k' = products T !! k') /\
    customers T' = customers T /\ invoices T' = invoices T /\
    invoice_items T' = invoice_items T.
Proof.
  unfold post_api_products, api_insert_product. intros Hp Hs.
  destruct (negb (js_truthy sc) || negb (js_truthy de));
    [inversion Hp; subst; discriminate Hs|].
  destruct (nullable (varchar 20) (prepareValue sc)) as [[k|]|] eqn:Ek;
    try (simpl in Hp; unfold failed in Hp; inversion Hp; subst; discriminate Hs).
  destruct (products T !! k) eqn:Ep;
    [simpl in Hp; inversion Hp; subst; discriminate Hs|].
  inversion Hp; subst; clear Hp. exists k. simpl.
  unfold get_api_product. simpl. rewrite lookup_insert_eq.
  repeat split; auto. intros k' Hne. rewrite lookup_insert_ne; auto.
Qed.


Lemma post_never_overwrites_aux sc de T resp T' :
  post_api_products development sc de T = (resp, T') ->
  T' = T \/
  exists k, products T !! k = None /\ invoice_items T' = invoice_items T /\
            forall k', k' <> k -> products T' !! k' = products T !! k'.
Proof.
  unfold post_api_products, api_insert_product. intros Hp.
  destruct (negb (js_truthy sc) || negb (js_truthy de));
    [inversion Hp; auto|].
  destruct (nullable (varchar 20) (prepareValue sc)) as [[k|]|];
    try (simpl in Hp; inversion Hp; auto; fail).
  destruct (products T !! k) eqn:Ep; [simpl in Hp; inversion Hp; auto|].
  inversion Hp; subst. right. exists k. simpl.
  repeat split; auto. intros k' Hne. rewrite lookup_insert_ne; auto.
Qed.

Lemma put_keeps_keys sc de ps T resp T' :
  put_api_product development sc de ps T = (resp, T') ->
  (forall k, is_Some (products T !! k) -> is_Some (products T' !! k)) /\
  invoice_items T' = invoice_items T.
Proof.
  unfold put_api_product, api_update_product. intros Hp.
  destruct (products T !! sc) as [cur|] eqn:Ec; [|inversion Hp; subst; auto].
  destruct (negb (js_truthy de) && is_undefined ps); [inversion Hp; subst; auto|].
  cbv zeta in Hp.
  match type of Hp with
  | context [nullable pg_integer ?p] =>
      destruct (nullable pg_integer p) as [score|]
  end; [|unfold failed in Hp; inversion Hp; subst; auto].
  inversion Hp; subst; clear Hp. simpl. split; [|reflexivity].
  intros k Hs. apply is_Some_insert_mono. exact Hs.
Qed.


(** X11: what PUT writes.  When it answers 200 the answer is the row now
    under the key, which GET then returns.  The description is the one sent
    if that is truthy and the old one otherwise, so an empty string cannot
    blank it.  The popularity score is what the server makes of the value
    sent, NULL for [null], and what it makes of the old score when the field
    is absent: the old score itself, where the server reads back the number
    it gave out. *)
Theorem put_writes_what_is_given sc de ps T resp T' cur :
  products T !! sc = Some cur ->
  put_api_product development sc de ps T = (resp, T') ->
  status resp = 200 ->
  exists row,
    products T' !! sc = Some row /\ body resp = ProductBody sc row /\
    get_api_product sc T' = mkResponse 200 (ProductBody sc row) /\
    p_description row = (if js_truthy de then prepareValue de
                         else p_description cur) /\
    (is_undefined ps = false ->
     nullable pg_integer (prepareValue ps) = Some (p_popularity_score row)) /\
    (ps = JsNull -> p_popularity_score row = None) /\
    (is_undefined ps = true ->
     (forall z, p_popularity_score cur = Some z ->
                pg_integer (number_text (number_of_int z)) = Some z) ->
     p_popularity_score row = p_popularity_score cur).
Proof.
  unfold put_api_product, api_update_product. intros Ec Hp Hs. rewrite Ec in Hp.
  destruct (negb (js_truthy de) && is_undefined ps);
    [inversion Hp; subst; discriminate Hs|].
  cbv zeta in Hp.
  match type of Hp with
  | context [nullable pg_integer ?p] =>
      destruct (nullable pg_integer p) as [score|] eqn:En
  end; [|unfold failed in Hp; inversion Hp; subst; discriminate Hs].
  inversion Hp; subst; clear Hp.
  eexists. simpl. unfold get_api_product. simpl. rewrite lookup_insert_eq.
  split; [reflexivity|]. split; [reflexivity|]. split; [reflexivity|].
  split; [reflexivity|]. simpl. split; [|split].
  - intros Hu. rewrite Hu in En. exact En.
  - intros ->. simpl in En. congruence.
  - intros Hu Hrt. rewrite Hu in En.
    destruct (p_popularity_score cur) as [z|]; simpl in En.
    + rewrite (Hrt z eq_refl) in En. simpl in En. congruence.
    + congruence.
Qed.

(** X12: a deleted product is gone.  When DELETE answers 204 the product
    was there and is there no more, GET on its key answers 404, a second
    DELETE answers 404 and changes nothing, and every other product and
    every other table is as before. *)
Theorem delete_then_gone sc T resp T' :
  delete_api_product development sc T = (resp, T') ->
  status resp = 204 ->
  is_Some (products T !! sc) /\ products T' !! sc = None /\
  status (get_api_product sc T') = 404 /\
  (exists resp2, delete_api_product development sc T' = (resp2, T') /\
                 status resp2 = 404) /\
  (forall k, k <> sc -> products T' !! k = products T !! k) /\
  customers T' = customers T /\ invoices T' = invoices T /\
  invoice_items T' = invoice_items T.
Proof.
  unfold delete_api_product, api_delete_product. intros Hd Hs.
  destruct (products T !! sc) as [cur|] eqn:Ec;
    [|simpl in Hd; inversion Hd; subst; discriminate Hs].
  destruct (product_referenced sc T);
    [simpl in Hd; inversion Hd; subst; discriminate Hs|].
  simpl in Hd. inversion Hd; subst; clear Hd. simpl.
  unfold get_api_product. simpl. rewrite !lookup_delete_eq. simpl.
  repeat split; eauto.
  intros k Hne. rewrite lookup_delete_ne; auto.
Qed.

(** X13: the product routes never orphan a line item.  If every line
    item with a stock code has its product, that still holds after any POST,
    PUT or DELETE on products; DELETE of a product that a line item references
    answers 409, and leaves all tables as they are unless it answers 204. *)
Theorem product_routes_keep_references T :
  items_have_products T ->
  (forall sc de resp T',
     post_api_products development sc de T = (resp, T') ->
     items_have_products T') /\
  (forall sc de ps resp T',
     put_api_product development sc de ps T = (resp, T') ->
     items_have_products T') /\
  (forall sc resp T',
     delete_api_product development sc T = (resp, T') ->
     items_have_products T' /\
     (status resp <> 204 -> T' = T) /\
     ((exists id it, invoice_items T !! id = Some it /\
                     it_stock_code it = Some sc) ->
      is_Some (products T !! sc) -> status resp = 409)).
Proof.
  intros Href. split; [|split].
  - intros sc de resp T' Hp.
    destruct (post_never_overwrites_aux sc de T resp T' Hp) as [-> | (k & Hk & Hi & Hpr)];
      [exact Href|].
    intros id it k' Hit Hsc. rewrite Hi in Hit.
    destruct (Href id it k' Hit Hsc) as [v Hv].
    destruct (decide (k' = k)) as [->|Hne]; [congruence|].
    rewrite Hpr by assumption. eauto.
  - intros sc de ps resp T' Hp.
    destruct (put_keeps_keys sc de ps T resp T' Hp) as (Hd & Hi).
    intros id it k Hit Hsc. rewrite Hi in Hit. apply Hd. eapply Href; eauto.
  - intros sc resp T' Hd.
    unfold delete_api_product, api_delete_product in Hd.
    destruct (products T !! sc) as [cur|] eqn:Ec.
    + destruct (product_referenced sc T) eqn:Er.
      * simpl in Hd. inversion Hd; subst. simpl.
        split; [exact Href|]. split; auto.
      * simpl in Hd. inversion Hd; subst; clear Hd. simpl.
        split; [|split; [congruence|]].
        -- intros id it k Hit Hsc. simpl in *.
           destruct (decide (k = sc)) as [->|Hne].
           ++ exfalso. assert (Ht : product_referenced sc T = true)
                by (apply product_referenced_spec; eauto). congruence.
           ++ rewrite lookup_delete_ne by congruence. eapply Href; eauto.
        -- intros Hex _. apply product_referenced_spec in Hex. congruence.
    + simpl in Hd. inversion Hd; subst. simpl.
      split; [exact Href|]. split; [auto|]. intros _ [v Hv]. discriminate.
Qed.

End ApiFacts.

(** * The loader and the API on one store *)

Section LoaderAndApi.
Context `{PgInput} `{JsData}.
Variable development : bool.

Lemma committed_keys g w row q :
  txn (client w) = Idle -> committed (after g w) = true ->
  row ∈ g -> q ∈ row_queries row ->
  key_in q (tables (client (after g w))).
Proof.
  intros Hidle Hc Hrow Hq.
  destruct (after_committed g w Hidle Hc) as (w1 & _ & Hl & Ht & _).
  rewrite Ht.
  apply (block_keys _ _ (tables (client w))) in Hl;
    [|apply batch_queries_insert|reflexivity].
  rewrite Forall_forall in Hl. apply Hl.
  eapply row_queries_in_batch; eauto.
Qed.

(** X14: what the loader has committed, the API serves.  After a group
    commits, for each of its records GET /api/customers/:customer_id, GET
    /api/products/:stock_code and GET /api/invoices/:invoice_id answer 200
    on the key under which the record's customer id, stock code (with a
    description) and invoice number are stored. *)
Theorem loaded_rows_are_served g w row :
  txn (client w) = Idle -> committed (after g w) = true -> row ∈ g ->
  (truthy (CustomerID row) = true ->
   exists k, nullable (varchar 20) (CustomerID row) = Some (Some k) /\
             status (get_api_customer k (tables (client (after g w)))) = 200) /\
  (truthy (StockCode row) && truthy (Description row) = true ->
   exists k, nullable (varchar 20) (StockCode row) = Some (Some k) /\
             status (get_api_product k (tables (client (after g w)))) = 200) /\
  (truthy (InvoiceNo row) = true ->
   exists k, nullable (varchar 20) (InvoiceNo row) = Some (Some k) /\
             status (get_api_invoice k (tables (client (after g w)))) = 200).
Proof.
  intros Hidle Hc Hrow.
  pose proof (fun q => committed_keys g w row q Hidle Hc Hrow) as Hin.
  unfold row_queries in Hin. repeat split.
  - intros Hg. rewrite Hg in Hin.
    destruct (Hin (InsertCustomer (CustomerID row) (Country row))) as (k & Hk & [v Hv]).
    { apply elem_of_app. left. apply list_elem_of_singleton. reflexivity. }
    exists k. split; [exact Hk|]. unfold get_api_customer. rewrite Hv. reflexivity.
  - intros Hg. rewrite Hg in Hin.
    destruct (Hin (InsertProduct (StockCode row) (Description row))) as (k & Hk & [v Hv]).
    { apply elem_of_app. right. apply elem_of_app. left.
      apply list_elem_of_singleton. reflexivity. }
    exists k. split; [exact Hk|]. unfold get_api_product. rewrite Hv. reflexivity.
  - intros Hg. rewrite Hg in Hin.
    destruct (Hin (InsertInvoice (InvoiceNo row) (CustomerID row) (InvoiceDate row)
                     (Country row) (is_cancelled_of row))) as (k & Hk & [v Hv]).
    { apply elem_of_app. right. apply elem_of_app. right. apply elem_of_app. left.
      apply list_elem_of_singleton. reflexivity. }
    exists k. split; [exact Hk|]. unfold get_api_invoice. rewrite Hv. reflexivity.
Qed.

(** The line items of a run of statements that all succeed are in the
    store at its end, each with its product. *)
Lemma block_lines qs : forall w snap w',
  Forall (fun q => is_insert q = true) qs ->
  txn (client w) = Active snap ->
  for_of qs client_query w = (Ok tt, w') ->
  forall a b c d, InsertItem a b c d ∈ qs -> truthy a && truthy b = true ->
    exists id it k,
      invoice_items (tables (client w')) !! id = Some it /\
      nullable (varchar 20) b = Some (Some k) /\
      it_stock_code it = Some k /\
      is_Some (products (tables (client w')) !! k).
Proof.
  induction qs as [|q qs IH]; intros w snap w' Hins Ht Hrun a b c d Hin Hg.
  - inversion Hin.
  - apply Forall_cons in Hins as [Hq Hqs]. simpl in Hrun. rewrite bind_eq in Hrun.
    destruct (client_query q w) as [[[]|e] wa] eqn:Hqa; [|discriminate].
    destruct (client_query_ok q w snap wa Hq Ht Hqa) as (Ta & sa & Hri & ->).
    apply elem_of_cons in Hin as [<-|Hin].
    + pose proof Hrun as Hrest.
      apply (block_ok qs _ snap w' Hqs) in Hrest; [|reflexivity].
      destruct Hrest as (_ & (_ & Hcp & _) & Hkept & _). simpl in Hcp, Hkept.
      pose proof (run_insert_resolves (InsertItem a b c d) _ _ _ _ Hg Hri) as Hres.
      simpl in Hri.
      destruct (insert_item_ok _ _ _ _ _ _ _ _ Hri)
        as (inv & sc & qty & price & _ & Hsc & _ & _ & Hfree & Hitems & _).
      assert (Hnew : invoice_items Ta !! (items_seq (client w) + 1)%Z
                     = Some (mkItem inv sc qty price))
        by (rewrite Hitems; apply lookup_insert_eq).
      destruct (Hres _ _ Hfree Hnew) as (ki & ks & _ & _ & Hks & Hp).
      simpl in Hks. subst sc.
      exists (items_seq (client w) + 1)%Z, (mkItem inv (Some ks) qty price), ks.
      repeat split; auto.
    + refine (IH _ snap w' Hqs _ Hrun a b c d Hin Hg). reflexivity.
Qed.

(** X15: a product the loader has sold cannot be deleted.  After a group
    commits, DELETE /api/products/:stock_code on the stock code of any of
    its records with a line item answers 409 and leaves the tables as they
    are. *)
Theorem loaded_product_cannot_be_deleted g w row :
  txn (client w) = Idle -> committed (after g w) = true ->
  row ∈ g -> has_item row = true ->
  exists k,
    nullable (varchar 20) (StockCode row) = Some (Some k) /\
    status (delete_api_product development k (tables (client (after g w)))).1 = 409 /\
    (delete_api_product development k (tables (client (after g w)))).2
      = tables (client (after g w)).
Proof.
  intros Hidle Hc Hrow Hg.
  destruct (after_committed g w Hidle Hc) as (w1 & _ & Hl & Ht & _).
  rewrite Ht.
  destruct (block_lines _ (begun w) (tables (client w)) w1 (batch_queries_insert g)
              eq_refl Hl (InvoiceNo row) (StockCode row) (Quantity row)
              (UnitPrice row)) as (id & it & k & Hit & Hk & Hsc & [p Hp]).
  { apply (row_queries_in_batch g row); [exact Hrow|].
    unfold row_queries. unfold has_item in Hg. rewrite Hg.
    apply elem_of_app. right. apply elem_of_app. right. apply elem_of_app. right.
    apply list_elem_of_singleton. reflexivity. }
  { exact Hg. }
  exists k. split; [exact Hk|].
  unfold delete_api_product, api_delete_product. rewrite Hp.
  assert (Hr : product_referenced k (tables (client w1)) = true)
    by (apply product_referenced_spec; eauto).
  rewrite Hr. simpl. auto.
Qed.

End LoaderAndApi.

(** * The monthly sales report *)

Global Instance month_le_total : Total month_le.
Proof. intros [x|] [y|]; simpl; auto. lia. Qed.

Global Instance month_le_trans : Transitive month_le.
Proof. intros [x|] [y|] [z|]; simpl; auto; try contradiction. lia. Qed.

Lemma sumZ_map_add {A} (f g : A -> Z) l :
  sumZ (map (fun x => (f x + g x)%Z) l) = (sumZ (map f l) + sumZ (map g l))%Z.
Proof. unfold sumZ. induction l as [|x l IH]; simpl; [reflexivity|]. rewrite IH. lia. Qed.

Lemma sumZ_indicator {A} `{EqDecision A} (x : A) v l :
  NoDup l ->
  sumZ (map (fun m => if decide (x = m) then v else 0%Z) l)
  = if decide (x ∈ l) then v else 0%Z.
Proof.
  unfold sumZ. induction 1 as [|y l Hy Hnd IH]; simpl.
  - destruct (decide (x ∈ [])) as [Hin|_]; [inversion Hin | reflexivity].
  - rewrite IH. destruct (decide (x = y)) as [->|Hne].
    + destruct (decide (y ∈ l)); [contradiction|].
      destruct (decide (y ∈ y :: l)) as [_|Hn]; [lia|].
      exfalso. apply Hn. left.
    + destruct (decide (x ∈ l)) as [Hin|Hnin].
      * destruct (decide (x ∈ y :: l)) as [_|Hn]; [lia|].
        exfalso. apply Hn. right. exact Hin.
      * destruct (decide (x ∈ y :: l)) as [Hin|_]; [|lia].
        apply elem_of_cons in Hin as [?|?]; contradiction.
Qed.

(** The value of a list of lines, NULL counting for nothing. *)
Lemma sumZ_omap_snd (ls : list (option Z * option Z)) :
  sumZ (omap snd ls) = sumZ (map (fun l => default 0%Z l.2) ls).
Proof.
  unfold sumZ. induction ls as [|[m [v|]] ls IH]; simpl; [reflexivity| |];
    rewrite <- IH; reflexivity.
Qed.

Lemma month_total_default m lines :
  default 0%Z (month_total m lines)
  = sumZ (map (fun l => default 0%Z l.2) (filter (fun l => l.1 = m) lines)).
Proof.
  unfold month_total. rewrite <- sumZ_omap_snd.
  destruct (omap snd (filter (fun l => l.1 = m) lines)); reflexivity.
Qed.

(** Summing month by month is summing all lines. *)
Lemma group_sum (ms : list (option Z)) (lines : list (option Z * option Z)) :
  NoDup ms -> (forall l, l ∈ lines -> l.1 ∈ ms) ->
  sumZ (map (fun m => default 0%Z (month_total m lines)) ms)
  = sumZ (map (fun l => default 0%Z l.2) lines).
Proof.
  intros Hnd. induction lines as [|l ls IH]; intros Hin.
  - assert (Hz : forall ms' : list (option Z),
              sumZ (map (fun m => default 0%Z (month_total m [])) ms') = 0%Z)
      by (induction ms' as [|m ms' IHm]; simpl; auto).
    rewrite Hz. reflexivity.
  - assert (Hstep : forall m,
              default 0%Z (month_total m (l :: ls))
              = ((if decide (l.1 = m) then default 0%Z l.2 else 0%Z)
                 + default 0%Z (month_total m ls))%Z).
    { intros m. rewrite !month_total_default. rewrite filter_cons.
      destruct (decide (l.1 = m)); simpl; reflexivity. }
    rewrite (map_ext _ _ Hstep), sumZ_map_add.
    rewrite sumZ_indicator by exact Hnd.
    rewrite IH by (intros l' Hl'; apply Hin; right; exact Hl').
    destruct (decide (l.1 ∈ ms)) as [_|Hn]; [reflexivity|].
    exfalso. apply Hn, Hin. left.
Qed.

Lemma fst_tagged {A B} (f : A -> B) (l : list A) :
  (map (fun m => (m, f m)) l).*1 = l.
Proof. induction l as [|x l IH]; simpl; [reflexivity|]. f_equal. exact IH. Qed.

Section SalesClaims.
Variable month_of : Z -> Z.

Lemma sales_months_Permutation T :
  (monthly_sales month_of T).*1 ≡ₚ remove_dups ((sales_lines month_of T).*1).
Proof.
  unfold monthly_sales. cbv zeta.
  rewrite fst_tagged. apply merge_sort_Permutation.
Qed.

(** X16: the months of the report.  The report has one row per month,
    in ascending order with the row for invoices without a date last, and a
    month has a row exactly when some line item belongs to an invoice of
    that month whose [is_cancelled] is false: cancelled invoices, and
    invoices without the flag, bring no row. *)
Theorem monthly_sales_months T :
  StronglySorted month_le ((monthly_sales month_of T).*1) /\
  NoDup ((monthly_sales month_of T).*1) /\
  forall m,
    m ∈ (monthly_sales month_of T).*1 <->
    exists id it k inv,
      invoice_items T !! id = Some it /\ it_invoice_id it = Some k /\
      invoices T !! k = Some inv /\ i_is_cancelled inv = Some false /\
      m = option_map month_of (i_invoice_date inv).
Proof.
  split; [|split].
  - unfold monthly_sales. cbv zeta.
    rewrite fst_tagged. apply StronglySorted_merge_sort; apply _.
  - rewrite sales_months_Permutation. apply NoDup_remove_dups.
  - intros m. rewrite sales_months_Permutation, elem_of_remove_dups.
    rewrite list_elem_of_fmap. unfold sales_lines. split.
    + intros ([m' v] & -> & Hl). apply list_elem_of_omap in Hl as ([id it] & Hkv & Hs).
      apply elem_of_map_to_list in Hkv. simpl in Hs. unfold sales_line in Hs.
      destruct (it_invoice_id it) as [k|] eqn:Ek; [|discriminate].
      destruct (invoices T !! k) as [inv|] eqn:Ei; [|discriminate].
      destruct (i_is_cancelled inv) as [[|]|] eqn:Ec; try discriminate.
      inversion Hs; subst. exists id, it, k, inv. auto.
    + intros (id & it & k & inv & Hit & Hk & Hi & Hc & ->).
      exists (option_map month_of (i_invoice_date inv), line_value it).
      split; [reflexivity|]. apply list_elem_of_omap. exists (id, it).
      split; [apply elem_of_map_to_list; exact Hit|].
      simpl. unfold sales_line. rewrite Hk, Hi, Hc. reflexivity.
Qed.

(** X17: the report accounts for every sale once.  The totals of the
    report add up to the sum of quantity times price over all line items of
    invoices whose [is_cancelled] is false, a NULL total or value counting
    for nothing. *)
Theorem monthly_sales_add_up T :
  sumZ (map (fun r => default 0%Z r.2) (monthly_sales month_of T))
  = sumZ (map (fun l => default 0%Z l.2) (sales_lines month_of T)).
Proof.
  unfold monthly_sales. cbv zeta. rewrite map_map. simpl.
  apply group_sum.
  - rewrite merge_sort_Permutation. apply NoDup_remove_dups.
  - intros l Hl. rewrite merge_sort_Permutation, elem_of_remove_dups.
    apply list_elem_of_fmap. exists l. auto.
Qed.

End SalesClaims.

(** * Further examples *)

(** [items_have_products], checked row by row. *)
Lemma items_have_products_check T :
  forallb (fun kv : Z * ItemRow =>
             match it_stock_code kv.2 with
             | Some k => bool_decide (is_Some (products T !! k))
             | None => true
             end) (map_to_list (invoice_items T)) = true ->
  items_have_products T.
Proof.
  intros Hb id it k Hit Hk. rewrite forallb_forall in Hb.
  apply elem_of_map_to_list, list_elem_of_In in Hit.
  specialize (Hb _ Hit). simpl in Hb. rewrite Hk in Hb.
  apply bool_decide_eq_true in Hb. exact Hb.
Qed.

Section MoreExamples.
Local Existing Instance decimal_input.
Local Existing Instance integer_numbers.


Lemma processBatch_sends_one_block_witness :
  txn (client fresh_world) = Idle /\
  exists qs fin,
    sent (after [ex_row1; ex_orphan] fresh_world)
      = sent fresh_world ++ BEGIN :: qs ++ [fin] /\
    qs `prefix_of` batch_queries [ex_row1; ex_orphan].
Proof.
  split; [reflexivity|].
  destruct (processBatch_sends_one_block [ex_row1; ex_orphan] fresh_world eq_refl)
    as (qs & fin & Hs & Hp & _).
  exists qs, fin. split; assumption.
Defined.

Lemma committed_group_is_loaded_witness :
  txn (client fresh_world) = Idle /\
  committed (after [ex_row1; ex_row2] fresh_world) = true /\
  size (invoice_items (tables (client (after [ex_row1; ex_row2] fresh_world))))
  = size (invoice_items (tables (client fresh_world)))
    + length (List.filter has_item [ex_row1; ex_row2]).
Proof.
  assert (Hc : committed (after [ex_row1; ex_row2] fresh_world) = true)
    by (vm_compute; reflexivity).
  split; [reflexivity|]. split; [exact Hc|].
  exact (proj1 (committed_group_is_loaded [ex_row1; ex_row2] fresh_world eq_refl Hc)).
Defined.


Lemma malformed_record_fails_group_witness :
  txn (client fresh_world) = Idle /\
  ex_bad_quantity ∈ [ex_row1; ex_bad_quantity] /\
  malformed ex_bad_quantity /\
  committed (after [ex_row1; ex_bad_quantity] fresh_world) = false.
Proof.
  assert (Hin : ex_bad_quantity ∈ [ex_row1; ex_bad_quantity])
    by (right; left).
  assert (Hm : malformed ex_bad_quantity)
    by (right; split; [reflexivity | left; vm_compute; reflexivity]).
  split; [reflexivity|]. split; [exact Hin|]. split; [exact Hm|].
  exact (proj1 (malformed_record_fails_group [ex_row1; ex_bad_quantity]
                  fresh_world ex_bad_quantity eq_refl Hin Hm)).
Defined.

Lemma blank_records_are_counted_witness :
  txn (client fresh_world) = Idle /\
  Forall (fun row => blank row = true) [ex_empty_line; ex_empty_cells] /\
  processedRows (after [ex_empty_line; ex_empty_cells] fresh_world)
    = processedRows fresh_world + length [ex_empty_line; ex_empty_cells].
Proof.
  assert (Hb : Forall (fun row => blank row = true) [ex_empty_line; ex_empty_cells])
    by (repeat constructor).
  split; [reflexivity|]. split; [exact Hb|].
  destruct (blank_records_are_counted [ex_empty_line; ex_empty_cells]
              fresh_world eq_refl Hb) as (_ & _ & Hn & _).
  exact Hn.
Defined.

Lemma post_then_get_product_witness :
  status (post_api_products false (JsString "85123A") (JsString "HOLDER")
            empty_tables).1 = 201 /\
  exists k,
    get_api_product k
      (post_api_products false (JsString "85123A") (JsString "HOLDER")
         empty_tables).2
    = mkResponse 200
        (body (post_api_products false (JsString "85123A") (JsString "HOLDER")
                 empty_tables).1).
Proof.
  assert (Hs : status (post_api_products false (JsString "85123A")
                         (JsString "HOLDER") empty_tables).1 = 201)
    by (vm_compute; reflexivity).
  split; [exact Hs|].
  destruct (post_then_get_product false (JsString "85123A") (JsString "HOLDER")
              empty_tables _ _ (surjective_pairing _) Hs)
    as (k & _ & _ & _ & Hg & _).
  exists k. exact Hg.
Defined.



Lemma put_writes_what_is_given_witness :
  products (tables (client (after [ex_row1] fresh_world))) !! "85123A"
  = Some (mkProduct (Some "WHITE HANGING HEART T-LIGHT HOLDER") (Some 0%Z)) /\
  status (put_api_product false "85123A" JsUndefined (JsNum 7%Z)
            (tables (client (after [ex_row1] fresh_world)))).1 = 200 /\
  exists row,
    products (put_api_product false "85123A" JsUndefined (JsNum 7%Z)
                (tables (client (after [ex_row1] fresh_world)))).2 !! "85123A"
    = Some row /\
    p_description row = Some "WHITE HANGING HEART T-LIGHT HOLDER" /\
    p_popularity_score row = Some 7%Z.
Proof.
  assert (Hc : products (tables (client (after [ex_row1] fresh_world))) !! "85123A"
               = Some (mkProduct (Some "WHITE HANGING HEART T-LIGHT HOLDER")
                                 (Some 0%Z)))
    by (vm_compute; reflexivity).
  assert (Hs : status (put_api_product false "85123A" JsUndefined (JsNum 7%Z)
                         (tables (client (after [ex_row1] fresh_world)))).1 = 200)
    by (vm_compute; reflexivity).
  split; [exact Hc|]. split; [exact Hs|].
  destruct (put_writes_what_is_given false "85123A" JsUndefined
              (@JsNum integer_numbers 7%Z)
              (tables (client (after [ex_row1] fresh_world))) _ _ _
              Hc (surjective_pairing _) Hs)
    as (row & Hr & _ & _ & Hd & Hp & _).
  exists row. split; [exact Hr|]. split; [exact Hd|].
  specialize (Hp eq_refl). vm_compute in Hp. inversion Hp as [Hq].
  symmetry. exact Hq.
Defined.

Lemma delete_then_gone_witness :
  status (delete_api_product false "85123A"
            (post_api_products false (JsString "85123A") (JsString "HOLDER")
               empty_tables).2).1 = 204 /\
  status (get_api_product "85123A"
            (delete_api_product false "85123A"
               (post_api_products false (JsString "85123A") (JsString "HOLDER")
                  empty_tables).2).2) = 404.
Proof.
  assert (Hs : status (delete_api_product false "85123A"
                         (post_api_products false (JsString "85123A")
                            (JsString "HOLDER") empty_tables).2).1 = 204)
    by (vm_compute; reflexivity).
  split; [exact Hs|].
  destruct (delete_then_gone false "85123A"
              (post_api_products false (JsString "85123A") (JsString "HOLDER")
                 empty_tables).2 _ _ (surjective_pairing _) Hs)
    as (_ & _ & Hg & _).
  exact Hg.
Defined.

Lemma product_routes_keep_references_witness :
  items_have_products (tables (client (after [ex_row1; ex_row2] fresh_world))) /\
  items_have_products
    (delete_api_product false "85123A"
       (tables (client (after [ex_row1; ex_row2] fresh_world)))).2.
Proof.
  assert (Hi : items_have_products
                 (tables (client (after [ex_row1; ex_row2] fresh_world))))
    by (apply items_have_products_check; vm_compute; reflexivity).
  split; [exact Hi|].
  destruct (product_routes_keep_references false
              (tables (client (after [ex_row1; ex_row2] fresh_world))) Hi)
    as (_ & _ & Hd).
  exact (proj1 (Hd "85123A" _ _ (surjective_pairing _))).
Defined.

Lemma loaded_rows_are_served_witness :
  txn (client fresh_world) = Idle /\
  committed (after [ex_row1; ex_row2] fresh_world) = true /\
  ex_row2 ∈ [ex_row1; ex_row2] /\
  truthy (InvoiceNo ex_row2) = true /\
  exists k,
    status (get_api_invoice k
              (tables (client (after [ex_row1; ex_row2] fresh_world)))) = 200.
Proof.
  assert (Hc : committed (after [ex_row1; ex_row2] fresh_world) = true)
    by (vm_compute; reflexivity).
  assert (Hin : ex_row2 ∈ [ex_row1; ex_row2]) by (right; left).
  split; [reflexivity|]. split; [exact Hc|]. split; [exact Hin|].
  split; [reflexivity|].
  destruct (loaded_rows_are_served [ex_row1; ex_row2] fresh_world ex_row2
              eq_refl Hc Hin) as (_ & _ & Hinv).
  destruct (Hinv eq_refl) as (k & _ & Hk).
  exists k. exact Hk.
Defined.

Lemma loaded_product_cannot_be_deleted_witness :
  txn (client fresh_world) = Idle /\
  committed (after [ex_row1; ex_row2] fresh_world) = true /\
  ex_row2 ∈ [ex_row1; ex_row2] /\
  has_item ex_row2 = true /\
  exists k,
    status (delete_api_product false k
              (tables (client (after [ex_row1; ex_row2] fresh_world)))).1 = 409.
Proof.
  assert (Hc : committed (after [ex_row1; ex_row2] fresh_world) = true)
    by (vm_compute; reflexivity).
  assert (Hin : ex_row2 ∈ [ex_row1; ex_row2]) by (right; left).
  split; [reflexivity|]. split; [exact Hc|]. split; [exact Hin|].
  split; [reflexivity|].
  destruct (loaded_product_cannot_be_deleted false [ex_row1; ex_row2] fresh_world
              ex_row2 eq_refl Hc Hin eq_refl) as (k & _ & Hk & _).
  exists k. exact Hk.
Defined.

Lemma calls_do_not_overlap_witness :
  (true = false \/ ends_full [ex_row1; ex_orphan; ex_late] = false) /\
  now (populate true [ex_row1; ex_orphan; ex_late] fresh_world)
  = world (populateDatabase [ex_row1; ex_orphan; ex_late] fresh_world).
Proof.
  assert (Hc : true = false \/ ends_full [ex_row1; ex_orphan; ex_late] = false)
    by (right; vm_compute; reflexivity).
  split; [exact Hc|].
  destruct (calls_do_not_overlap true [ex_row1; ex_orphan; ex_late] fresh_world Hc)
    as (_ & _ & _ & _ & _ & _ & Hw).
  exact Hw.
Defined.

Lemma at_most_two_in_flight_witness :
  reachable (boot (repeat ex_row1 2000) fresh_world)
            (play true 6003 (boot (repeat ex_row1 2000) fresh_world)) /\
  length (queue (play true 6003 (boot (repeat ex_row1 2000) fresh_world))) <= 2.
Proof.
  assert (Hr : reachable (boot (repeat ex_row1 2000) fresh_world)
                 (play true 6003 (boot (repeat ex_row1 2000) fresh_world)))
    by (apply play_reachable, reach_start).
  split; [exact Hr|].
  destruct (at_most_two_in_flight (repeat ex_row1 2000) fresh_world _ Hr)
    as (_ & Hq & _).
  exact Hq.
Defined.

(** The report over the first two records of the end-to-end example:
    the cancelled invoice is left out, the sale of six at 2.55 is the
    total of December. *)
Example monthly_sales_of_example :
  monthly_sales iso_month (tables (client (after [ex_row1; ex_row2] fresh_world)))
  = [(Some 12%Z, Some 1530%Z)].
Proof. vm_compute. reflexivity. Qed.

End MoreExamples.
